(** * sqs-batch: the in-memory buffer and the receiver loop

    A shallow embedding of [lib/buffers/memory.js] (class [Memory]) and of
    the receiver ([class Receiver]: poll, dispatch, acknowledge), with the
    event loop made explicit: what the JavaScript code hands to the SDK, to
    [setTimeout] or to an event listener is recorded in the state, and every
    asynchronous completion is an input of a step function. *)

From Stdlib Require Import ZArith Lia.
From stdpp Require Import base option list gmap strings.

Local Open Scope Z_scope.

(** ** JavaScript values used by the two classes *)

(** [x] is truthy: a number other than 0; [undefined] is falsy. *)
Definition truthyZ (x : option Z) : bool :=
  match x with
  | Some n => negb (n =? 0)
  | None => false
  end.

(** [x || d] on an optional number. *)
Definition orZ (x : option Z) (d : Z) : Z :=
  if truthyZ x then default d x else d.

(** [a < b], [a > b], [a <= b]: a comparison with [undefined] is false. *)
Definition js_lt (a b : option Z) : bool :=
  match a, b with Some x, Some y => x <? y | _, _ => false end.
Definition js_gt (a b : option Z) : bool :=
  match a, b with Some x, Some y => y <? x | _, _ => false end.
Definition js_le (a b : option Z) : bool :=
  match a, b with Some x, Some y => x <=? y | _, _ => false end.

(** What a function call does: it returns, or it throws. *)
Inductive Outcome (A : Type) : Type :=
  | Returned (a : A)
  | Thrown (msg : string).
Arguments Returned {A} a.
Arguments Thrown {A} msg.

(** [Array.prototype.slice]: a negative index counts from the end, and
    both ends are clamped to the array. *)
Definition js_index (len : nat) (i : Z) : nat :=
  if i <? 0 then Z.to_nat (Z.max 0 (Z.of_nat len + i))
  else Z.to_nat (Z.min i (Z.of_nat len)).

Definition slice {A} (l : list A) (b e : Z) : list A :=
  let s := js_index (length l) b in
  take (js_index (length l) e - s)%nat (drop s l).

Definition slice_from {A} (l : list A) (b : Z) : list A :=
  drop (js_index (length l) b) l.

(** ** Timers of the host ([setTimeout], [clearTimeout]) *)

(** The two functions the code hands to [setTimeout]: the buffer's
    [_flushBound], and the receiver's [this._poll], which is the method
    itself and not [_pollBound]. *)
Inductive Callback : Type :=
  | FlushBound
  | PollUnbound.

Record Timers : Type := mkTimers {
  pending : list (nat * Callback * Z);
  next_timer : nat
}.

Definition no_timers : Timers := mkTimers [] 1.

Definition setTimeout (cb : Callback) (delay : Z) (h : Timers) : nat * Timers :=
  (next_timer h, mkTimers (pending h ++ [(next_timer h, cb, delay)]) (S (next_timer h))).

Definition timer_is (id : nat) (t : nat * Callback * Z) : bool :=
  Nat.eqb (fst (fst t)) id.

Definition clearTimeout (id : nat) (h : Timers) : Timers :=
  mkTimers (List.filter (fun t => negb (timer_is id t)) (pending h)) (next_timer h).

(** The timer [id] expires: it leaves the pending set and its callback
    is what the host calls next. *)
Definition expire (id : nat) (h : Timers) : option (Callback * Timers) :=
  match List.find (timer_is id) (pending h) with
  | Some t => Some (snd (fst t), clearTimeout id h)
  | None => None
  end.

(** ** lib/buffers/memory.js *)

Module Memory.
Section Buffer.
Context {A : Type}.

Record t : Type := mk {
  bufferSize : Z;
  bufferTimeout : Z;
  items : list A;
  timerId : option nat
}.

Record Options : Type := mkOptions {
  o_bufferSize : option Z;
  o_bufferTimeout : option Z
}.

Definition _validate (options : option Options) : Outcome unit :=
  match options with
  | None => Thrown "Missing required options"
  | Some o =>
      if negb (truthyZ (o_bufferSize o))
      then Thrown "Missing required option [bufferSize]."
      else if negb (truthyZ (o_bufferTimeout o))
      then Thrown "Missing required option [bufferTimeout]."
      else Returned tt
  end.

(** The fields the constructor sets once validation has passed. *)
Definition init (size timeout : Z) : t := mk size timeout [] None.

Definition constructor (options : option Options) : Outcome t :=
  match _validate options, options with
  | Thrown msg, _ => Thrown msg
  | Returned _, Some o =>
      Returned (init (default 0 (o_bufferSize o)) (default 0 (o_bufferTimeout o)))
  | Returned _, None => Thrown "Missing required options"
  end.

Definition set_items (l : list A) (b : t) : t :=
  mk (bufferSize b) (bufferTimeout b) l (timerId b).
Definition set_timerId (i : option nat) (b : t) : t :=
  mk (bufferSize b) (bufferTimeout b) (items b) i.

(** A buffer and the host's timers; a call also yields the payloads of
    the ['flush'] events it emitted, oldest first. *)
Definition St : Type := (t * Timers)%type.

Definition _startTimer (s : St) : St :=
  let '(b, h) := s in
  match timerId b with
  | Some _ => s
  | None =>
      let '(id, h') := setTimeout FlushBound (bufferTimeout b) h in
      (set_timerId (Some id) b, h')
  end.

Definition _stopTimer (s : St) : St :=
  let '(b, h) := s in
  match timerId b with
  | Some id => (set_timerId None b, clearTimeout id h)
  | None => s
  end.

Definition _flush (s : St) : St * list (list A) :=
  let '(b, h) := _stopTimer s in
  ((set_items [] b, h), [items b]).

(** The argument of [add]: one item, or an array of items. *)
Inductive AddArg : Type :=
  | Single (x : A)
  | Many (xs : list A).

Definition arg_items (a : AddArg) : list A :=
  match a with
  | Single x => [x]
  | Many xs => xs
  end.

(** [add] calls itself on what did not fit; [fuel] bounds the depth of
    that recursion, and [None] is a recursion that did not end within it. *)
Fixpoint add_fuel (fuel : nat) (a : AddArg) (s : St) : option (St * list (list A)) :=
  match fuel with
  | O => None
  | S fuel' =>
      let '(b, h) := s in
      let currentSize := Z.of_nat (length (items b)) in
      match a with
      | Many xs =>
          let possibleSize := currentSize + Z.of_nat (length xs) in
          if bufferSize b <? possibleSize then
            let available := bufferSize b - currentSize in
            let sliced := slice xs 0 available in
            let remaining := slice_from xs available in
            let '(s1, f1) := _flush (set_items (items b ++ sliced) b, h) in
            match add_fuel fuel' (Many remaining) s1 with
            | Some (s2, f2) => Some (s2, f1 ++ f2)
            | None => None
            end
          else
            let s1 := (set_items (items b ++ xs) b, h) in
            if possibleSize =? bufferSize b then Some (_flush s1)
            else Some (_startTimer s1, [])
      | Single x =>
          let b1 := set_items (items b ++ [x]) b in
          if Z.of_nat (length (items b1)) =? bufferSize b1 then Some (_flush (b1, h))
          else Some (_startTimer (b1, h), [])
      end
  end.

Definition add (a : AddArg) (s : St) : option (St * list (list A)) :=
  add_fuel (2 + length (arg_items a)) a s.

(** What a call of [add] that does not return has done once it is
    [depth] calls deep: the buffer, the timers, and the flushes emitted
    on the way. *)
Fixpoint add_overflow (depth : nat) (a : AddArg) (s : St) : St * list (list A) :=
  match depth with
  | O => (s, [])
  | S depth' =>
      let '(b, h) := s in
      let currentSize := Z.of_nat (length (items b)) in
      match a with
      | Many xs =>
          let possibleSize := currentSize + Z.of_nat (length xs) in
          if bufferSize b <? possibleSize then
            let available := bufferSize b - currentSize in
            let sliced := slice xs 0 available in
            let remaining := slice_from xs available in
            let '(s1, f1) := _flush (set_items (items b ++ sliced) b, h) in
            let '(s2, f2) := add_overflow depth' (Many remaining) s1 in
            (s2, f1 ++ f2)
          else (s, [])
      | Single _ => (s, [])
      end
  end.

(** What can happen to a buffer: a call of [add], a call of [_flush],
    and the expiry of a timer of the host. *)
Inductive Op : Type :=
  | OpAdd (a : AddArg)
  | OpFlush
  | OpTimeout (id : nat).

Definition op_items (o : Op) : list A :=
  match o with
  | OpAdd a => arg_items a
  | _ => []
  end.

Definition op_nonempty (o : Op) : Prop :=
  match o with
  | OpAdd a => arg_items a ≠ []
  | _ => True
  end.

Definition apply_op (o : Op) (s : St) : option (St * list (list A)) :=
  match o with
  | OpAdd a => add a s
  | OpFlush => Some (_flush s)
  | OpTimeout id =>
      match expire id (snd s) with
      | Some (FlushBound, h) => Some (_flush (fst s, h))
      | Some (PollUnbound, h) => Some ((fst s, h), [])
      | None => Some (s, [])
      end
  end.

Fixpoint run (ops : list Op) (s : St) : option (St * list (list A)) :=
  match ops with
  | [] => Some (s, [])
  | o :: ops' =>
      match apply_op o s with
      | Some (s1, f1) =>
          match run ops' s1 with
          | Some (s2, f2) => Some (s2, f1 ++ f2)
          | None => None
          end
      | None => None
      end
  end.

(** A timer of the host is live for the buffer. *)
Definition live_timer (s : St) : Prop := pending (snd s) ≠ [].

Definition fresh_buffer (size timeout : Z) : St := (init size timeout, no_timers).

End Buffer.
Arguments t : clear implicits.
Arguments St : clear implicits.
Arguments AddArg : clear implicits.
Arguments Op : clear implicits.
End Memory.


(** ** The receiver: poll, dispatch, acknowledge *)

Module Receiver.

Record Message : Type := mkMessage {
  MessageId : string;
  ReceiptHandle : string;
  Body : string
}.

(** [err.code] of a failure reported by the SDK. *)
Inductive Code : Type :=
  | CodeNumber (n : Z)
  | CodeString (s : string)
  | CodeUndefined.

Record SdkError : Type := mkSdkError {
  code : Code;
  message : string
}.

(** lib/errors.js *)
Inductive ErrorClass : Type :=
  | SQSError
  | SQSAuthenticationError
  | ConsumerDeleteError
  | ProcessingError.

Record Error : Type := mkError {
  error_constructor : ErrorClass;
  error_message : string
}.

(** What the application passes to the acknowledgment handle: nothing
    (or any falsy value), an [Error], one message, or an array of
    messages, which is a reference into the heap. *)
Inductive AckArg : Type :=
  | ArgNone
  | ArgError (msg : string)
  | ArgMessage (m : Message)
  | ArgArray (l : nat).

Inductive Event : Type :=
  | EvError (e : Error)
  | EvMessageReceived (msgs : list Message)
  | EvProcessingError (e : Error)
  | EvMessageProcessed (message : AckArg)
  | EvStopped.

Record Params : Type := mkParams {
  p_QueueUrl : option string;
  p_AttributeNames : option (list string);
  p_MessageAttributeNames : option (list string);
  p_MaxNumberOfMessages : option Z;
  p_WaitTimeSeconds : option Z;
  p_VisibilityTimeout : option Z
}.

Record Entry : Type := mkEntry {
  e_Id : string;
  e_ReceiptHandle : string
}.

(** What leaves the receiver, in the order it happens: an event handed
    to the listeners, a request handed to the SDK (a delete names the
    acknowledgment it belongs to), a call of the application's
    [messageReceiver], or an exception the receiver does not catch. *)
Inductive Effect : Type :=
  | Emit (e : Event)
  | ReceiveMessage (p : Params)
  | DeleteMessage (ack : nat) (QueueUrl : string) (Handle : string)
  | DeleteMessageBatch (ack : nat) (QueueUrl : string) (Entries : list Entry)
  | CallMessageReceiver (msgs : list Message)
  | Throw (msg : string).

Record Receiver : Type := mkReceiver {
  queueUrl : string;
  batchSize : Z;
  waitTimeSeconds : option Z;
  visibilityTimeout : option Z;
  attributeNames : list string;
  messageAttributeNames : list string;
  authenticationErrorTimeout : Z;
  bufferSize : option Z;
  bufferTimeout : Z;
  buffer : option (Memory.t Message);
  stopped : bool
}.

Definition set_stopped (v : bool) (r : Receiver) : Receiver :=
  mkReceiver (queueUrl r) (batchSize r) (waitTimeSeconds r) (visibilityTimeout r)
    (attributeNames r) (messageAttributeNames r) (authenticationErrorTimeout r)
    (bufferSize r) (bufferTimeout r) (buffer r) v.

Definition set_buffer (v : option (Memory.t Message)) (r : Receiver) : Receiver :=
  mkReceiver (queueUrl r) (batchSize r) (waitTimeSeconds r) (visibilityTimeout r)
    (attributeNames r) (messageAttributeNames r) (authenticationErrorTimeout r)
    (bufferSize r) (bufferTimeout r) v (stopped r).

(** An acknowledgment whose delete calls have not all been answered:
    the callback of one [sqs.deleteMessage], or the [Promise.all] over
    the delete-batch calls, with the number of promises still pending
    and whether its reaction has run (for an empty array there is no
    promise to wait for, and the reaction is still to run). Both keep the
    [message] the application passed. *)
Inductive PendingAck : Type :=
  | AckOne (message : AckArg)
  | AckBatch (message : AckArg) (unresolved : nat) (settled : bool).

(** The receiver and its host: the timers, the arrays of the
    application, the acknowledgments whose delete calls are unanswered,
    the number of receive requests in flight, whether ['error'] has a
    listener ([EventEmitter.listenerCount('error') > 0]), and what has
    left the receiver so far. *)
Record World : Type := mkWorld {
  me : Receiver;
  timers : Timers;
  heap : gmap nat (list Message);
  acks : gmap nat PendingAck;
  inflight : nat;
  heard : bool;
  trace : list Effect
}.

Definition set_me (v : Receiver) (w : World) : World :=
  mkWorld v (timers w) (heap w) (acks w) (inflight w) (heard w) (trace w).
Definition set_timers (v : Timers) (w : World) : World :=
  mkWorld (me w) v (heap w) (acks w) (inflight w) (heard w) (trace w).
Definition set_heap (v : gmap nat (list Message)) (w : World) : World :=
  mkWorld (me w) (timers w) v (acks w) (inflight w) (heard w) (trace w).
Definition set_acks (v : gmap nat PendingAck) (w : World) : World :=
  mkWorld (me w) (timers w) (heap w) v (inflight w) (heard w) (trace w).
Definition set_inflight (v : nat) (w : World) : World :=
  mkWorld (me w) (timers w) (heap w) (acks w) v (heard w) (trace w).
Definition set_heard (v : bool) (w : World) : World :=
  mkWorld (me w) (timers w) (heap w) (acks w) (inflight w) v (trace w).
Definition effect (e : Effect) (w : World) : World :=
  mkWorld (me w) (timers w) (heap w) (acks w) (inflight w) (heard w) (trace w ++ [e]).

(** [this.emit(name, payload)] for an event other than ['error']: the
    listeners are called, however many there are. *)
Definition emit (e : Event) (w : World) : World := effect (Emit e) w.

(** How a call ends: it returns, or it throws and what its caller had
    left to do is skipped. *)
Inductive Completion : Type :=
  | Normal (w : World)
  | Abrupt (w : World).

Definition after (c : Completion) : World :=
  match c with
  | Normal w | Abrupt w => w
  end.

Definition and_then (c : Completion) (k : World -> World) : World :=
  match c with
  | Normal w => k w
  | Abrupt w => w
  end.

Definition class_name (c : ErrorClass) : string :=
  match c with
  | SQSError => "SQSError"
  | SQSAuthenticationError => "SQSAuthenticationError"
  | ConsumerDeleteError => "ConsumerDeleteError"
  | ProcessingError => "ProcessingError"
  end.

(** [this.emit('error', error)]: with a listener the event is handed
    over; with none, [EventEmitter] throws [error] itself. *)
Definition emit_error (error : Error) (w : World) : Completion :=
  if heard w then Normal (emit (EvError error) w)
  else
    Abrupt (effect (Throw (class_name (error_constructor error) +:+ ": "
                           +:+ error_message error)) w).

(** *** Construction *)

Record Options : Type := mkOptions {
  o_queueUrl : option string;
  o_messageReceiver : bool;
  o_batchSize : option Z;
  o_waitTimeSeconds : option Z;
  o_visibilityTimeout : option Z;
  o_attributeNames : option (list string);
  o_messageAttributeNames : option (list string);
  o_authenticationErrorTimeout : option Z;
  o_bufferSize : option Z;
  o_bufferTimeout : option Z
}.

Definition truthyS (s : option string) : bool :=
  match s with
  | Some s => negb (String.eqb s "")
  | None => false
  end.

Definition _validate (options : option Options) : Outcome unit :=
  match options with
  | None => Thrown "Missing required options"
  | Some o =>
      if negb (truthyS (o_queueUrl o))
      then Thrown "Missing required option [queueUrl]."
      else if negb (o_messageReceiver o)
      then Thrown "Missing required option [messageReceiver]."
      else if js_lt (o_batchSize o) (Some 1) || js_gt (o_batchSize o) (Some 10)
      then Thrown "Invalid SQS [batchSize]. Must be between 1 and 10."
      else if js_le (o_bufferSize o) (o_batchSize o)
      then Thrown "Invalid SQS [bufferSize]. Must be greater than [batchSize]."
      else Returned tt
  end.

(** The constructor; [options.sqs] and [options.buffer] are the
    defaults (the SDK client and a [Memory] buffer). *)
Definition constructor (options : option Options) : Outcome Receiver :=
  match _validate options, options with
  | Thrown msg, _ => Thrown msg
  | Returned _, None => Thrown "Missing required options"
  | Returned _, Some o =>
      let r :=
        mkReceiver (default "" (o_queueUrl o)) (orZ (o_batchSize o) 1)
          (o_waitTimeSeconds o) (o_visibilityTimeout o)
          (default [] (o_attributeNames o)) (default [] (o_messageAttributeNames o))
          (orZ (o_authenticationErrorTimeout o) 10000)
          (o_bufferSize o) (orZ (o_bufferTimeout o) 10000) None true in
      if truthyZ (o_bufferSize o) then
        match Memory.constructor
                (Some (Memory.mkOptions (bufferSize r) (Some (bufferTimeout r)))) with
        | Returned b => Returned (set_buffer (Some b) r)
        | Thrown msg => Thrown msg
        end
      else Returned r
  end.

(** The receiver in a host with no timer, no request in flight and
    nothing emitted; [arrays] are the arrays the application holds, and
    the application listens on ['error'], as test/consumer.js does
    ([sqs.on('error', done)]). *)
Definition boot (r : Receiver) (arrays : gmap nat (list Message)) : World :=
  mkWorld r no_timers arrays ∅ 0 true [].

(** *** Polling *)

(** What [this] is bound to when a method runs: the receiver, or, for a
    method handed to [setTimeout] as it is, the timer object, on which
    every field of the receiver reads as [undefined]. *)
Inductive This : Type :=
  | ThisReceiver
  | ThisTimer.

Definition field {X} (this : This) (w : World) (f : Receiver -> X) : option X :=
  match this with
  | ThisReceiver => Some (f (me w))
  | ThisTimer => None
  end.

Definition _poll (this : This) (w : World) : World :=
  let params :=
    mkParams (field this w queueUrl) (field this w attributeNames)
      (field this w messageAttributeNames) (field this w batchSize)
      (mjoin (field this w waitTimeSeconds)) (mjoin (field this w visibilityTimeout)) in
  if negb (default false (field this w stopped)) then
    match this with
    | ThisReceiver => set_inflight (S (inflight w)) (effect (ReceiveMessage params) w)
    | ThisTimer =>
        effect (Throw "TypeError: Cannot read property 'receiveMessage' of undefined") w
    end
  else
    match this with
    | ThisReceiver => emit EvStopped w
    | ThisTimer => effect (Throw "TypeError: this.emit is not a function") w
    end.

Definition _handleErrors (error : Error) (w : World) : Completion :=
  match error_constructor error with
  | SQSError | SQSAuthenticationError => emit_error error w
  | ConsumerDeleteError | ProcessingError => Normal (emit (EvProcessingError error) w)
  end.

Definition _onFlush (messages : list Message) (w : World) : World :=
  effect (CallMessageReceiver messages) w.

(** The number of nested calls of [add] the engine has room for; it
    depends on the engine and on the size of its stack, and is about ten
    thousand for Node.js. *)
Definition max_call_depth : nat := N.to_nat 10000.

(** [this.buffer.add(messages, this._pollBound)]: [Memory.add] has one
    parameter, so the second argument is dropped; the listener of
    ['flush'] runs once per flush. A call of [add] that does not return
    flushes until the stack is full. *)
Definition buffer_add (messages : list Message) (w : World) : World :=
  match buffer (me w) with
  | Some b =>
      match Memory.add (Memory.Many messages) (b, timers w) with
      | Some ((b', h'), flushes) =>
          foldl (fun w f => _onFlush f w)
            (set_timers h' (set_me (set_buffer (Some b') (me w)) w)) flushes
      | None =>
          let '((b', h'), flushes) :=
            Memory.add_overflow max_call_depth (Memory.Many messages) (b, timers w) in
          effect (Throw "RangeError: Maximum call stack size exceeded")
            (foldl (fun w f => _onFlush f w)
               (set_timers h' (set_me (set_buffer (Some b') (me w)) w)) flushes)
      end
  | None => effect (Throw "TypeError: Cannot read property 'add' of undefined") w
  end.

Definition _internalMessageProcessor (messages : list Message) (w : World) : World :=
  let w1 := emit (EvMessageReceived messages) w in
  if truthyZ (bufferSize (me w1)) then buffer_add messages w1
  else effect (CallMessageReceiver messages) w1.

Definition is_authentication (c : Code) : bool :=
  match c with
  | CodeNumber n => n =? 403
  | CodeString s => String.eqb s "CredentialsError"
  | CodeUndefined => false
  end.

(** What [sqs.receiveMessage] calls back with: an error, or a response
    whose [Messages] may be missing. *)
Inductive ReceiveResult : Type :=
  | ReceiveFailed (err : SdkError)
  | Received (Messages : option (list Message)).

Definition schedule (cb : Callback) (delay : Z) (w : World) : World :=
  set_timers (snd (setTimeout cb delay (timers w))) w.

Definition _internalMessageReceiver (r : ReceiveResult) (w : World) : World :=
  match r with
  | ReceiveFailed err =>
      if is_authentication (code err) then
        and_then
          (_handleErrors (mkError SQSAuthenticationError "SQS authentication Error") w)
          (fun w1 => schedule PollUnbound (authenticationErrorTimeout (me w1)) w1)
      else after (_handleErrors (mkError SQSError "SQS Receive Error") w)
  | Received (Some (m :: ms)) => _internalMessageProcessor (m :: ms) w
  | Received _ => _poll ThisReceiver w
  end.

Definition start (w : World) : World :=
  if stopped (me w) then _poll ThisReceiver (set_me (set_stopped false (me w)) w)
  else w.

Definition stop (w : World) : World := set_me (set_stopped true (me w)) w.

(** *** Acknowledgment *)

Definition new_ack (w : World) : nat := fresh (dom (acks w)).

(** [message] is the receiver's first argument, [orig] what the
    application passed to [deleteMessage]. *)
Definition _deleteMessageOne (message : Message) (orig : AckArg) (w : World) : World :=
  if String.eqb (ReceiptHandle message) "" then
    effect (Throw "TypeError: Cannot read property 'ReceiptHandle' of undefined") w
  else
    let id := new_ack w in
    effect (DeleteMessage id (queueUrl (me w)) (ReceiptHandle message))
      (set_acks (<[id := AckOne orig]> (acks w)) w).

Definition entry_of (item : Message) : Entry :=
  mkEntry (MessageId item) (ReceiptHandle item).

(** The [while] loop of [_deleteMessageBatch] over the array at [copy]:
    [splice(0, 10)] removes the chunk from that array. It returns the
    number of promises pushed. *)
Fixpoint batch_loop (fuel : nat) (copy id : nat) (w : World) (promises : nat)
  : World * nat :=
  match fuel with
  | O => (w, promises)
  | S fuel' =>
      match heap w !! copy with
      | Some (m :: ms) =>
          let chunk := take 10 (m :: ms) in
          let w1 := set_heap (<[copy := drop 10 (m :: ms)]> (heap w)) w in
          let w2 := effect (DeleteMessageBatch id (queueUrl (me w1)) (entry_of <$> chunk)) w1 in
          batch_loop fuel' copy id w2 (S promises)
      | _ => (w, promises)
      end
  end.

Definition _messageProcessed (message : AckArg) (w : World) : World :=
  _poll ThisReceiver (emit (EvMessageProcessed message) w).

(** The callback [deleteMessage] gives to both delete paths. *)
Definition delete_callback (message : AckArg) (err : option Error) (w : World) : World :=
  match err with
  | Some e => and_then (_handleErrors e w) (_poll ThisReceiver)
  | None => _messageProcessed message w
  end.

(** [Promise.all(promises)] is registered with the number of promises
    it waits for; its reactions never run inside this call, not even when
    there is no promise to wait for. *)
Definition _deleteMessageBatch (copy : nat) (orig : AckArg) (w : World) : World :=
  let id := new_ack w in
  let '(w1, promises) :=
    batch_loop (length (default [] (heap w !! copy))) copy id w 0 in
  set_acks (<[id := AckBatch orig promises false]> (acks w1)) w1.

Definition deleteMessage (message : AckArg) (w : World) : World :=
  match message with
  | ArgNone =>
      and_then
        (_handleErrors (mkError ConsumerDeleteError "No message supplied to be deleted") w)
        (_poll ThisReceiver)
  | ArgError msg =>
      and_then (_handleErrors (mkError ProcessingError msg) w) (_poll ThisReceiver)
  | ArgMessage m => _deleteMessageOne m message w
  | ArgArray l =>
      match heap w !! l with
      | None => w
      | Some [m] => _deleteMessageOne m message w
      | Some msgs =>
          let messageCopy := fresh (dom (heap w)) in
          _deleteMessageBatch messageCopy message
            (set_heap (<[messageCopy := msgs]> (heap w)) w)
      end
  end.

(** What [sqs.deleteMessageBatch] calls back with. *)
Inductive BatchResult : Type :=
  | BatchFailed (err : SdkError)
  | BatchData (Failed : list Entry).

Definition batch_rejection (r : BatchResult) : option Error :=
  match r with
  | BatchFailed err =>
      Some (mkError SQSError
              ("SQS delete message batch failed with error: " +:+ message err))
  | BatchData (f :: fs) =>
      Some (mkError SQSError
              ("SQS delete message batch failed with errors: "
               +:+ String.concat "," ((fun _ => "[object Object]") <$> (f :: fs))))
  | BatchData [] => None
  end.

(** *** The event loop *)

(** What the host and the application do to the receiver: the calls of
    its public methods ([Listen true] is [on('error', listener)],
    [Listen false] is [removeAllListeners('error')]), the replies of the
    SDK, the expiry of a timer, and the microtask in which the reaction
    of a [Promise.all] over no promise runs. *)
Inductive Input : Type :=
  | Start
  | Stop
  | ReceiveReply (r : ReceiveResult)
  | Ack (a : AckArg)
  | DeleteReply (ack : nat) (err : option SdkError)
  | BatchReply (ack : nat) (r : BatchResult)
  | TimerFires (id : nat)
  | Listen (on : bool)
  | Microtask (ack : nat).

Definition on_delete_reply (id : nat) (err : option SdkError) (w : World) : World :=
  match acks w !! id with
  | Some (AckOne orig) =>
      let w1 := set_acks (delete id (acks w)) w in
      match err with
      | Some e =>
          delete_callback orig
            (Some (mkError SQSError
                     ("SQS delete message failed with error: " +:+ message e))) w1
      | None => delete_callback orig None w1
      end
  | _ => w
  end.

Definition on_batch_reply (id : nat) (r : BatchResult) (w : World) : World :=
  match acks w !! id with
  | Some (AckBatch orig (S n) settled) =>
      match batch_rejection r with
      | Some e =>
          let w1 := set_acks (<[id := AckBatch orig n true]> (acks w)) w in
          if settled then w1 else delete_callback orig (Some e) w1
      | None =>
          let done := settled || Nat.eqb n 0 in
          let w1 := set_acks (<[id := AckBatch orig n done]> (acks w)) w in
          if settled then w1
          else if Nat.eqb n 0 then delete_callback orig None w1
          else w1
      end
  | _ => w
  end.

(** [Promise.all([])] is already resolved, and its [then] reaction runs
    once the code that called [deleteMessage] has returned to the event
    loop: after what the application does next in the same turn
    ([Stop], [Start], [Ack], [Listen]), and before the next reply or
    timer. *)
Definition on_microtask (id : nat) (w : World) : World :=
  match acks w !! id with
  | Some (AckBatch orig O false) =>
      delete_callback orig None (set_acks (<[id := AckBatch orig 0 true]> (acks w)) w)
  | _ => w
  end.

Definition on_timer (id : nat) (w : World) : World :=
  match expire id (timers w) with
  | Some (FlushBound, h) =>
      match buffer (me w) with
      | Some b =>
          let '((b', h'), flushes) := Memory._flush (b, h) in
          foldl (fun w f => _onFlush f w)
            (set_timers h' (set_me (set_buffer (Some b') (me w)) w)) flushes
      | None => set_timers h w
      end
  | Some (PollUnbound, h) => _poll ThisTimer (set_timers h w)
  | None => w
  end.

Definition step (i : Input) (w : World) : World :=
  match i with
  | Start => start w
  | Stop => stop w
  | ReceiveReply r =>
      match inflight w with
      | S n => _internalMessageReceiver r (set_inflight n w)
      | O => w
      end
  | Ack a => deleteMessage a w
  | DeleteReply id err => on_delete_reply id err w
  | BatchReply id r => on_batch_reply id r w
  | TimerFires id => on_timer id w
  | Listen on => set_heard on w
  | Microtask id => on_microtask id w
  end.

Definition steps (inputs : list Input) (w : World) : World :=
  foldl (fun w i => step i w) w inputs.

(** *** Reading a trace *)

Definition is_receive (e : Effect) : bool :=
  match e with ReceiveMessage _ => true | _ => false end.
Definition is_delete (e : Effect) : bool :=
  match e with DeleteMessage _ _ _ | DeleteMessageBatch _ _ _ => true | _ => false end.
Definition is_processed (e : Effect) : bool :=
  match e with Emit (EvMessageProcessed _) => true | _ => false end.
Definition is_processing_error (e : Effect) : bool :=
  match e with Emit (EvProcessingError _) => true | _ => false end.
Definition is_error (e : Effect) : bool :=
  match e with Emit (EvError _) => true | _ => false end.
Definition is_stopped (e : Effect) : bool :=
  match e with Emit EvStopped => true | _ => false end.

Definition count (p : Effect -> bool) (l : list Effect) : nat :=
  length (List.filter p l).

(** The effects of [w'] that [w] did not have yet. *)
Definition since (w w' : World) : list Effect :=
  drop (length (trace w)) (trace w').

(** What a poll of the receiver adds to the trace. *)
Definition poll_effects (w : World) : list Effect := since w (_poll ThisReceiver w).

(** Nothing is left that would call [_poll] later: no receive in
    flight, no timer, no acknowledgment pending. *)
Definition idle (w : World) : Prop :=
  inflight w = 0%nat ∧ pending (timers w) = [] ∧ acks w = ∅.

(** The chunks [_deleteMessageBatch] takes off the front, ten at a time. *)
Fixpoint chunks (fuel : nat) (l : list Message) : list (list Message) :=
  match fuel, l with
  | S fuel', _ :: _ => take 10 l :: chunks fuel' (drop 10 l)
  | _, _ => []
  end.

End Receiver.

(** ** Specification-level definitions *)

Module MemorySpec.
Section Spec.
Context {A : Type}.

(** The host's pending timers are the buffer's own: the one [timerId]
    names, or none. *)
Definition timer_ok (tmo : Z) (s : Memory.St A) : Prop :=
  match Memory.timerId (fst s) with
  | Some id => pending (snd s) = [(id, FlushBound, tmo)]
  | None => pending (snd s) = []
  end.

(** What every call preserves on a buffer of capacity [cap]: the buffer
    is never left full, and a buffer that holds items has its timer. With
    [strict], which needs every [add] to bring an item, a buffer with a
    timer also holds items. *)
Definition inv (cap tmo : Z) (strict : bool) (s : Memory.St A) : Prop :=
  Memory.bufferSize (fst s) = cap ∧
  Memory.bufferTimeout (fst s) = tmo ∧
  Z.of_nat (length (Memory.items (fst s))) < cap ∧
  timer_ok tmo s ∧
  (Memory.items (fst s) ≠ [] → Memory.timerId (fst s) ≠ None) ∧
  (strict = true → Memory.timerId (fst s) ≠ None → Memory.items (fst s) ≠ []).

(** A flush within the capacity. *)
Definition fits (cap : Z) (f : list A) : Prop := Z.of_nat (length f) ≤ cap.

(** The invariant of the buffer: the length of [items] is within the
    capacity, and a timer is live exactly when the buffer is neither
    empty nor full. *)
Definition buffer_invariant (cap : Z) (s : Memory.St A) : Prop :=
  0 ≤ Z.of_nat (length (Memory.items s.1)) ≤ cap ∧
  (Memory.live_timer s ↔ 0 < Z.of_nat (length (Memory.items s.1)) < cap).

End Spec.
End MemorySpec.

Module ReceiverSpec.
Import Receiver.

Definition throws {A} (r : Outcome A) : Prop := ∃ msg, r = Thrown msg.

(** The batch size the constructor stores: [options.batchSize || 1]. *)
Definition effective_batchSize (o : Options) : Z := orZ (o_batchSize o) 1.

(** The configuration errors as the specification lists them. *)
Definition specified_configuration_error (o : Options) : Prop :=
  truthyS (o_queueUrl o) = false ∨
  o_messageReceiver o = false ∨
  (∃ n, o_batchSize o = Some n ∧ (n < 1 ∨ 10 < n)) ∨
  (∃ b, o_bufferSize o = Some b ∧ ¬ effective_batchSize o < b).

(** The configuration errors of [_validate]. *)
Definition configuration_error (o : Options) : Prop :=
  truthyS (o_queueUrl o) = false ∨
  o_messageReceiver o = false ∨
  (∃ n, o_batchSize o = Some n ∧ (n < 1 ∨ 10 < n)) ∨
  (∃ b n, o_bufferSize o = Some b ∧ o_batchSize o = Some n ∧ b ≤ n).

(** The request a poll of the receiver hands to [sqs.receiveMessage]. *)
Definition receive_params (r : Receiver) : Params :=
  mkParams (Some (queueUrl r)) (Some (attributeNames r)) (Some (messageAttributeNames r))
    (Some (batchSize r)) (waitTimeSeconds r) (visibilityTimeout r).

(** The error [Promise.all] rejects with: that of the first reply that
    rejects its promise. *)
Fixpoint first_rejection (rs : list BatchResult) : option Error :=
  match rs with
  | [] => None
  | r :: rs' =>
      match batch_rejection r with
      | Some e => Some e
      | None => first_rejection rs'
      end
  end.

(** From [w] to [w'] the trace only grew, by no receive request, and the
    receiver is stopped in [w']. *)
Definition calm (w w' : World) : Prop :=
  ∃ l, trace w' = trace w ++ l ∧ count is_receive l = 0%nat ∧ stopped (me w') = true.

(** The delete-batch call of one chunk. *)
Definition batch_call (id : nat) (r : Receiver) (chunk : list Message) : Effect :=
  DeleteMessageBatch id (queueUrl r) (entry_of <$> chunk).

(** The delete-batch request for one chunk, entry by entry: the
    [MessageId] of a message as [Id], next to its [ReceiptHandle]. *)
Definition delete_batch_request (id : nat) (url : string) (chunk : list Message) : Effect :=
  DeleteMessageBatch id url ((fun m => mkEntry (MessageId m) (ReceiptHandle m)) <$> chunk).

(** Polling resumes: the receiver [r] asks for messages with its
    parameters, or, once stopped, says so. *)
Definition polled (r : Receiver) : list Effect :=
  if stopped r then [Emit EvStopped] else [ReceiveMessage (receive_params r)].

(** The receive requests in flight after a poll of [r] when [n] were in
    flight before it. *)
Definition polled_inflight (r : Receiver) (n : nat) : nat :=
  if stopped r then n else S n.

(** A chunk fails, in the words of the specification: the call reports
    an error, or its [Failed] list is not empty. *)
Definition chunk_failed (r : BatchResult) : bool :=
  match r with
  | BatchFailed _ => true
  | BatchData [] => false
  | BatchData (_ :: _) => true
  end.

(** The message of the error a failed chunk is reported with; an array
    of objects in a template string reads [[object Object]] per entry. *)
Definition failure_text (r : BatchResult) : string :=
  match r with
  | BatchFailed err => "SQS delete message batch failed with error: " +:+ message err
  | BatchData Failed =>
      "SQS delete message batch failed with errors: "
      +:+ String.concat "," ((fun _ => "[object Object]") <$> Failed)
  end.

(** How an error thrown by [emit('error', e)] reads. *)
Definition uncaught (e : Error) : Effect :=
  Throw (class_name (error_constructor e) +:+ ": " +:+ error_message e).

(** What [_handleErrors] adds to the trace when ['error'] has a listener
    or not, and whether its caller goes on. *)
Definition report (e : Error) (listening : bool) : Effect :=
  match error_constructor e with
  | SQSError | SQSAuthenticationError => if listening then Emit (EvError e) else uncaught e
  | ConsumerDeleteError | ProcessingError => Emit (EvProcessingError e)
  end.

Definition goes_on (e : Error) (listening : bool) : bool :=
  match error_constructor e with
  | SQSError | SQSAuthenticationError => listening
  | ConsumerDeleteError | ProcessingError => true
  end.

(** What the replies to the chunks of one acknowledgment add, once all
    have come or the first has failed: the outcome of [Promise.all]. *)
Definition batch_outcome (orig : AckArg) (w : World) (failed : option BatchResult)
  : list Effect :=
  match failed with
  | None => Emit (EvMessageProcessed orig) :: polled (me w)
  | Some r =>
      if heard w then Emit (EvError (mkError SQSError (failure_text r))) :: polled (me w)
      else [Throw ("SQSError: " +:+ failure_text r)]
  end.

Definition batch_outcome_inflight (w : World) (failed : option BatchResult) : nat :=
  match failed with
  | None => polled_inflight (me w) (inflight w)
  | Some r => if heard w then polled_inflight (me w) (inflight w) else inflight w
  end.
End ReceiverSpec.

Module Scenario.
Import Receiver.

(** The options of the README's first example. *)
Definition plain_options : Options :=
  mkOptions (Some "https://sqs/queue") true None None None None None None None None.

(** The options of the buffered tests of test/consumer.js. *)
Definition buffered_options : Options :=
  mkOptions (Some "https://sqs/queue") true (Some 10) None None None None None
    (Some 20) (Some 1000).

Definition plain_receiver : Receiver :=
  mkReceiver "https://sqs/queue" 1 None None [] [] 10000 None 10000 None true.

Definition buffered_receiver : Receiver :=
  mkReceiver "https://sqs/queue" 10 None None [] [] 10000 (Some 20) 1000
    (Some (Memory.init 20 1000)) true.

Definition msg (n : string) : Message := mkMessage n ("handle-" +:+ n) "body".

Definition twelve : list Message :=
  msg <$> ["1"; "2"; "3"; "4"; "5"; "6"; "7"; "8"; "9"; "10"; "11"; "12"].

(** A receiver with a buffer of two messages. *)
Definition small_buffer_options : Options :=
  mkOptions (Some "https://sqs/queue") true (Some 1) None None None None None
    (Some 2) (Some 500).

Definition small_buffer_receiver : Receiver :=
  mkReceiver "https://sqs/queue" 1 None None [] [] 10000 (Some 2) 500
    (Some (Memory.init 2 500)) true.

(** Three messages arrive in one response, then the buffer's timer expires. *)
Definition three_then_timeout : list Input :=
  [Start; ReceiveReply (Received (Some [msg "1"; msg "2"; msg "3"])); TimerFires 1].

(** A started receiver whose application holds an array of twelve messages. *)
Definition holding_twelve : World := start (boot plain_receiver {[ 7%nat := twelve ]}).

(** A receiver with a negative [bufferSize], which [_validate] lets pass. *)
Definition negative_buffer_options : Options :=
  mkOptions (Some "https://sqs/queue") true None None None None None None (Some (-1)) None.

Definition negative_buffer_receiver : Receiver :=
  mkReceiver "https://sqs/queue" 1 None None [] [] 10000 (Some (-1)) 10000
    (Some (Memory.init (-1) 10000)) true.
End Scenario.

(** ** Whole batches *)

Module Batches.
Section Batch.
Context {A : Type}.

(** A flush of exactly [cap] items. *)
Definition full (cap : Z) (f : list A) : Prop := Z.of_nat (length f) = cap.
End Batch.
End Batches.

(** ** What the receiver keeps over a run *)

Module Invariants.
Import Receiver ReceiverSpec.

(** A receive request carries the parameters the receiver [r] was
    configured with. *)
Definition configured (r : Receiver) (e : Effect) : Prop :=
  match e with
  | ReceiveMessage p => p = receive_params r
  | _ => True
  end.

(** The messages a ['message:received'] event announces, and those a call
    of [messageReceiver] hands to the application. *)
Definition received_of (e : Effect) : list Message :=
  match e with
  | Emit (EvMessageReceived msgs) => msgs
  | _ => []
  end.

Definition handed_of (e : Effect) : list Message :=
  match e with
  | CallMessageReceiver msgs => msgs
  | _ => []
  end.

Definition received (l : list Effect) : list Message := concat (received_of <$> l).
Definition handed (l : list Effect) : list Message := concat (handed_of <$> l).

(** The messages waiting in the receiver's buffer. *)
Definition buffered (r : Receiver) : list Message :=
  match buffer r with
  | Some b => Memory.items b
  | None => []
  end.

Definition capacity (r : Receiver) : option Z := Memory.bufferSize <$> buffer r.

(** The receiver has a buffer exactly when [bufferSize] is set, and the
    buffer has a capacity of at least 1 that its items do not reach. *)
Definition well_buffered (r : Receiver) : Prop :=
  match buffer r with
  | Some b =>
      truthyZ (bufferSize r) = true ∧ 1 ≤ Memory.bufferSize b ∧
      Z.of_nat (length (Memory.items b)) < Memory.bufferSize b
  | None => truthyZ (bufferSize r) = false
  end.

(** A call of [messageReceiver] carries no more messages than the buffer's
    capacity [c], when there is a buffer. *)
Definition within (c : option Z) (e : Effect) : Prop :=
  match e, c with
  | CallMessageReceiver msgs, Some cap => Z.of_nat (length msgs) ≤ cap
  | _, _ => True
  end.

(** An effect that neither announces nor hands over messages. *)
Definition plain (e : Effect) : Prop :=
  match e with
  | Emit (EvMessageReceived _) | CallMessageReceiver _ => False
  | _ => True
  end.

(** From [w] to [w'] the trace grew by receive requests of the
    configuration [r0] only and the application's arrays kept their
    contents; and if the buffer of [w] is well formed, so is that of [w'],
    with the same capacity, every call of [messageReceiver] is within it,
    and the messages buffered before followed by those received are those
    handed over followed by those buffered after. *)
Definition evolves (r0 : Receiver) (w w' : World) : Prop :=
  ∃ l, trace w' = trace w ++ l ∧
       Forall (configured r0) l ∧
       receive_params (me w') = receive_params r0 ∧
       (∀ a xs, heap w !! a = Some xs → heap w' !! a = Some xs) ∧
       (well_buffered (me w) →
          well_buffered (me w') ∧
          capacity (me w') = capacity (me w) ∧
          Forall (within (capacity (me w))) l ∧
          buffered (me w) ++ received l = handed l ++ buffered (me w')).
End Invariants.

(** * Proofs *)

Section SliceFacts.
Context {A : Type}.
Implicit Types l : list A.

Lemma slice_prefix l e : 0 ≤ e → slice l 0 e = take (Z.to_nat e) l.
Proof.
  intros He. unfold slice, js_index.
  replace (0 <? 0) with false by reflexivity.
  destruct (e <? 0) eqn:E; [lia|].
  rewrite (Z.min_l 0) by lia. change (Z.to_nat 0) with 0%nat.
  rewrite drop_0, Nat.sub_0_r.
  destruct (decide (e ≤ Z.of_nat (length l))) as [Hle|Hgt].
  - by rewrite Z.min_l by lia.
  - rewrite Z.min_r by lia. rewrite Nat2Z.id.
    rewrite firstn_all. symmetry. apply take_ge. lia.
Qed.

Lemma slice_from_suffix l e : 0 ≤ e → slice_from l e = drop (Z.to_nat e) l.
Proof.
  intros He. unfold slice_from, js_index.
  destruct (e <? 0) eqn:E; [lia|].
  destruct (decide (e ≤ Z.of_nat (length l))) as [Hle|Hgt].
  - by rewrite Z.min_l by lia.
  - rewrite Z.min_r by lia. rewrite Nat2Z.id.
    rewrite drop_all. symmetry. apply drop_ge. lia.
Qed.
End SliceFacts.

Section MemoryFacts.
Context {A : Type}.
Variables cap tmo : Z.
Hypothesis cap_pos : 1 ≤ cap.
Implicit Types (b : Memory.t A) (h : Timers) (s : Memory.St A).

Import Memory MemorySpec.

Lemma clear_only_timer id cb d n :
  clearTimeout id (mkTimers [(id, cb, d)] n) = mkTimers [] n.
Proof. unfold clearTimeout, timer_is. simpl. by rewrite Nat.eqb_refl. Qed.

Lemma flush_eq b h :
  (timer_ok tmo (b, h) ∨ pending h = []) →
  _flush (b, h) =
    ((mk (bufferSize b) (bufferTimeout b) [] None, mkTimers [] (next_timer h)), [items b]).
Proof.
  unfold timer_ok, _flush, _stopTimer. destruct h as [p n]. simpl.
  destruct (timerId b) as [id|] eqn:E; intros [-> | ->];
    unfold clearTimeout, timer_is, set_items, set_timerId; simpl;
    rewrite ?Nat.eqb_refl, ?E; done.
Qed.

Lemma flush_spec strict b h :
  bufferSize b = cap → bufferTimeout b = tmo → (timer_ok tmo (b, h) ∨ pending h = []) →
  ∃ s', _flush (b, h) = (s', [items b]) ∧ inv cap tmo strict s' ∧ items (fst s') = [].
Proof.
  intros Hc Ht Hok. rewrite flush_eq by done.
  eexists. split; [reflexivity|]. split; [|done].
  unfold inv, timer_ok. simpl. repeat split; try done. lia.
Qed.

Lemma startTimer_spec strict b h :
  bufferSize b = cap → bufferTimeout b = tmo → timer_ok tmo (b, h) →
  Z.of_nat (length (items b)) < cap →
  (strict = true → items b ≠ []) →
  inv cap tmo strict (_startTimer (b, h)) ∧ items (fst (_startTimer (b, h))) = items b.
Proof.
  intros Hc Ht Hok Hlen Hne. unfold _startTimer, inv, timer_ok in *. simpl in *.
  destruct (timerId b) as [id|] eqn:E; simpl.
  - rewrite E. split_and!; try done. intros Hs _. by apply Hne.
  - rewrite Hok, Ht. simpl. split_and!; try done. intros Hs _. by apply Hne.
Qed.

Lemma add_many_spec strict fuel : ∀ xs s,
  (length xs < fuel)%nat → inv cap tmo strict s → (strict = true → xs ≠ []) →
  ∃ s' f, add_fuel fuel (Many xs) s = Some (s', f) ∧ inv cap tmo strict s' ∧
          Forall (fits cap) f ∧ concat f ++ items (fst s') = items (fst s) ++ xs.
Proof.
  induction fuel as [|fuel IH]; intros xs [b h] Hfuel Hinv Hne; [lia|].
  destruct Hinv as (Hc & Ht & Hlen & Hok & Hlive & Hstrict). simpl in *.
  rewrite Hc.
  destruct (cap <? Z.of_nat (length (items b)) + Z.of_nat (length xs)) eqn:Hover.
  - apply Z.ltb_lt in Hover.
    set (a := Z.to_nat (cap - Z.of_nat (length (items b)))).
    rewrite slice_prefix, slice_from_suffix by lia. fold a.
    destruct (flush_spec strict (set_items (items b ++ take a xs) b) h)
      as (s1 & Hf & Hinv1 & Hempty); try done; [by left|].
    rewrite Hf.
    destruct (IH (drop a xs) s1) as (s2 & f2 & Hadd & Hinv2 & Hfits & Hcat).
    + rewrite length_drop. lia.
    + done.
    + intros _ Hnil. apply (f_equal length) in Hnil.
      rewrite length_drop in Hnil. simpl in Hnil. lia.
    + rewrite Hadd. exists s2, ([items b ++ take a xs] ++ f2).
      split; [done|]. split; [done|]. split.
      * constructor; [|done]. unfold fits.
        rewrite length_app, length_take. lia.
      * simpl. rewrite <- !app_assoc. rewrite Hcat, Hempty. simpl.
        by rewrite take_drop.
  - apply Z.ltb_ge in Hover.
    destruct (Z.of_nat (length (items b)) + Z.of_nat (length xs) =? cap) eqn:Hfull.
    + apply Z.eqb_eq in Hfull.
      destruct (flush_spec strict (set_items (items b ++ xs) b) h)
        as (s1 & Hf & Hinv1 & Hempty); try done; [by left|].
      rewrite Hf. exists s1, [items b ++ xs]. split; [done|]. split; [done|]. split.
      * constructor; [|constructor]. unfold fits. rewrite length_app. lia.
      * simpl. rewrite Hempty. by rewrite !app_nil_r.
    + apply Z.eqb_neq in Hfull.
      destruct (startTimer_spec strict (set_items (items b ++ xs) b) h)
        as (Hinv1 & Hitems); try done.
      * simpl. rewrite length_app. lia.
      * simpl. intros Hs Hnil. apply app_eq_nil in Hnil as [_ Hnil]. by apply Hne.
      * eexists _, []. split; [done|]. split; [done|]. split; [constructor|].
        by destruct (timerId b).
Qed.

Lemma add_single_spec strict x s :
  inv cap tmo strict s →
  ∃ s' f, add (Single x) s = Some (s', f) ∧ inv cap tmo strict s' ∧
          Forall (fits cap) f ∧ concat f ++ items (fst s') = items (fst s) ++ [x].
Proof.
  destruct s as [b h]. intros (Hc & Ht & Hlen & Hok & Hlive & Hstrict).
  unfold add. cbn [arg_items length Nat.add add_fuel]. simpl in Hc, Ht, Hlen.
  cbn [items bufferSize set_items]. rewrite Hc.
  destruct (Z.of_nat (length (items b ++ [x])) =? cap) eqn:Hfull.
  - apply Z.eqb_eq in Hfull.
    destruct (flush_spec strict (set_items (items b ++ [x]) b) h)
      as (s1 & Hf & Hinv1 & Hempty); try done; [by left|].
    rewrite Hf. exists s1, [items b ++ [x]]. split; [done|]. split; [done|]. split.
    + constructor; [|constructor]. unfold fits. lia.
    + simpl. rewrite Hempty. by rewrite !app_nil_r.
  - apply Z.eqb_neq in Hfull. rewrite length_app in Hfull. simpl in Hfull.
    destruct (startTimer_spec strict (set_items (items b ++ [x]) b) h)
      as (Hinv1 & Hitems); try done.
    + simpl. rewrite length_app. simpl. lia.
    + simpl. intros _ Hnil. by apply app_eq_nil in Hnil as [_ ?].
    + eexists _, []. split; [done|]. split; [done|]. split; [constructor|].
      by rewrite Hitems.
Qed.

Lemma expire_spec id b h :
  timer_ok tmo (b, h) →
  expire id h = None ∨ ∃ h', expire id h = Some (FlushBound, h') ∧ pending h' = [].
Proof.
  unfold timer_ok, expire, clearTimeout. destruct h as [p n]. simpl.
  destruct (timerId b) as [id0|]; intros ->; simpl; [|by left].
  unfold timer_is. simpl. destruct (Nat.eqb id0 id) eqn:E; [|by left].
  right. eexists. split; [reflexivity|]. done.
Qed.

Lemma apply_op_spec strict o s :
  inv cap tmo strict s → (strict = true → op_nonempty o) →
  ∃ s' f, apply_op o s = Some (s', f) ∧ inv cap tmo strict s' ∧
          Forall (fits cap) f ∧ concat f ++ items (fst s') = items (fst s) ++ op_items o.
Proof.
  intros Hinv Hne. destruct o as [[x|xs]| |id].
  - by apply add_single_spec.
  - apply add_many_spec; [simpl; lia|done|done].
  - destruct s as [b h]. destruct Hinv as (Hc & Ht & Hlen & Hok & Hlive & Hstrict).
    destruct (flush_spec strict b h) as (s1 & Hf & Hinv1 & Hempty); try done; [by left|].
    simpl. rewrite Hf. exists s1, [items b]. split; [done|]. split; [done|]. split.
    + constructor; [|constructor]. unfold fits. simpl in Hlen. lia.
    + simpl. by rewrite Hempty, !app_nil_r.
  - destruct s as [b h]. pose proof Hinv as (Hc & Ht & Hlen & Hok & Hlive & Hstrict).
    simpl. destruct (expire_spec id b h Hok) as [-> | (h' & -> & Hp)].
    + exists (b, h), []. split; [done|]. split; [done|]. split; [constructor|].
      simpl. by rewrite app_nil_r.
    + destruct (flush_spec strict b h') as (s1 & Hf & Hinv1 & Hempty); try done; [by right|].
      simpl. rewrite Hf. exists s1, [items b]. split; [done|]. split; [done|]. split.
      * constructor; [|constructor]. unfold fits. simpl in Hlen. lia.
      * simpl. by rewrite Hempty, !app_nil_r.
Qed.

Lemma run_spec strict ops : ∀ s,
  inv cap tmo strict s → (strict = true → Forall op_nonempty ops) →
  ∃ s' f, run ops s = Some (s', f) ∧ inv cap tmo strict s' ∧
          Forall (fits cap) f ∧
          concat f ++ items (fst s') = items (fst s) ++ concat (op_items <$> ops).
Proof.
  induction ops as [|o ops IH]; intros s Hinv Hne.
  - exists s, []. simpl. split; [done|]. split; [done|]. split; [constructor|].
    by rewrite app_nil_r.
  - destruct (apply_op_spec strict o s) as (s1 & f1 & Hop & Hinv1 & Hfit1 & Hcat1).
    + done.
    + intros Hs. specialize (Hne Hs). by inversion Hne.
    + destruct (IH s1) as (s2 & f2 & Hrun & Hinv2 & Hfit2 & Hcat2).
      * done.
      * intros Hs. specialize (Hne Hs). by inversion Hne.
      * exists s2, (f1 ++ f2). simpl. rewrite Hop, Hrun. split; [done|].
        split; [done|]. split; [by apply Forall_app|].
        rewrite concat_app, <- app_assoc, Hcat2, app_assoc, Hcat1.
        by rewrite <- app_assoc.
Qed.

Lemma fresh_buffer_inv strict : inv cap tmo strict (@fresh_buffer A cap tmo).
Proof. unfold inv, timer_ok, fresh_buffer. simpl. split_and!; try done. lia. Qed.
End MemoryFacts.

Section MemoryTheorems.
Context {A : Type}.
Import Memory MemorySpec.

(** C3. On a fresh buffer of capacity at least 1, every finite sequence
    of calls of [add] (with one item or with an array of items; calls of
    [_flush] and timer expiries may come in between) runs to its end,
    every flush it emits holds at most [capacity] items, and the flushes
    in the order they were emitted, followed by the items left in the
    buffer, are the added items in the order they were added. *)
Theorem flushes_bounded_in_order (cap tmo : Z) (ops : list (Op A)) :
  1 ≤ cap →
  ∃ s f, run ops (fresh_buffer cap tmo) = Some (s, f) ∧
         Forall (fits cap) f ∧
         concat f ++ items s.1 = concat (op_items <$> ops).
Proof.
  intros Hcap.
  destruct (run_spec cap tmo Hcap false ops (fresh_buffer cap tmo))
    as (s & f & Hrun & _ & Hfits & Hcat); [apply fresh_buffer_inv; done|done|].
  exists s, f. split_and!; done.
Qed.

Lemma inv_live cap tmo strict (s : St A) :
  inv cap tmo strict s → (live_timer s ↔ timerId s.1 ≠ None).
Proof.
  intros (_ & _ & _ & Hok & _). unfold timer_ok, live_timer in *.
  destruct (timerId s.1); rewrite Hok; split; done.
Qed.

Lemma nonempty_length (l : list A) : l ≠ [] ↔ 0 < Z.of_nat (length l).
Proof. destruct l; simpl; split; intros; try done; lia. Qed.

(** C6, as amended. On a fresh buffer of capacity at least 1, after
    every sequence of calls of [add] and [_flush] and of timer expiries
    (an [add] of an empty array included), the buffer holds between 0 and
    [capacity] items and a timer is live whenever it is neither empty nor
    full; if no [add] of the sequence was given an empty array, a timer
    is live exactly when the buffer is neither empty nor full. *)
Theorem invariant_of_reachable_buffers (cap tmo : Z) (ops : list (Op A)) :
  1 ≤ cap →
  ∃ s f, run ops (fresh_buffer cap tmo) = Some (s, f) ∧
         0 ≤ Z.of_nat (length (items s.1)) ≤ cap ∧
         (0 < Z.of_nat (length (items s.1)) < cap → live_timer s) ∧
         (Forall op_nonempty ops → buffer_invariant cap s).
Proof.
  intros Hcap.
  destruct (run_spec cap tmo Hcap false ops (fresh_buffer cap tmo))
    as (s & f & Hrun & Hinv & _); [apply fresh_buffer_inv; done|done|].
  exists s, f. split; [done|].
  pose proof (inv_live _ _ _ _ Hinv) as Hl.
  destruct Hinv as (_ & _ & Hlen & _ & Hlive & _).
  split; [lia|]. split.
  - intros Hpos. apply Hl, Hlive, nonempty_length. lia.
  - intros Hne.
    destruct (run_spec cap tmo Hcap true ops (fresh_buffer cap tmo))
      as (s' & f' & Hrun' & Hinv' & _); [apply fresh_buffer_inv; done|done|].
    rewrite Hrun in Hrun'. injection Hrun' as <- <-.
    destruct Hinv' as (_ & _ & _ & _ & _ & Hstrict').
    split; [lia|]. split.
    + intros Hlt. apply Hl, Hstrict', nonempty_length in Hlt; [lia|done].
    + intros Hpos. apply Hl, Hlive, nonempty_length. lia.
Qed.
End MemoryTheorems.

Lemma flushes_bounded_in_order_witness :
  1 ≤ 3 ∧
  ∃ s f, Memory.run [Memory.OpAdd (Memory.Many [1; 2]%nat); Memory.OpAdd (Memory.Single 3%nat);
                     Memory.OpAdd (Memory.Many [4; 5; 6; 7; 8]%nat); Memory.OpTimeout 2]
           (Memory.fresh_buffer 3 1000) = Some (s, f) ∧
         Forall (MemorySpec.fits 3) f ∧
         concat f ++ Memory.items s.1 = [1; 2; 3; 4; 5; 6; 7; 8]%nat.
Proof.
  split; [lia|].
  apply (flushes_bounded_in_order 3 1000
           [Memory.OpAdd (Memory.Many [1; 2]%nat); Memory.OpAdd (Memory.Single 3%nat);
            Memory.OpAdd (Memory.Many [4; 5; 6; 7; 8]%nat); Memory.OpTimeout 2]).
  lia.
Defined.

Lemma invariant_of_reachable_buffers_witness :
  1 ≤ 3 ∧
  Forall Memory.op_nonempty
    [Memory.OpAdd (Memory.Many [1; 2]%nat); Memory.OpTimeout 1; Memory.OpAdd (Memory.Single 3%nat)] ∧
  ∃ s f, Memory.run [Memory.OpAdd (Memory.Many [1; 2]%nat); Memory.OpTimeout 1;
                     Memory.OpAdd (Memory.Single 3%nat)]
           (Memory.fresh_buffer 3 1000) = Some (s, f) ∧
         MemorySpec.buffer_invariant 3 s.
Proof.
  split; [lia|].
  assert (Forall Memory.op_nonempty
            [Memory.OpAdd (Memory.Many [1; 2]%nat); Memory.OpTimeout 1;
             Memory.OpAdd (Memory.Single 3%nat)]) as Hne by (repeat constructor; done).
  split; [exact Hne|].
  destruct (invariant_of_reachable_buffers 3 1000
              [Memory.OpAdd (Memory.Many [1; 2]%nat); Memory.OpTimeout 1;
               Memory.OpAdd (Memory.Single 3%nat)])
    as (s & f & Hrun & _ & _ & Hinv); [lia|].
  exists s, f. split; [exact Hrun|exact (Hinv Hne)].
Defined.

(** The third test of the memory buffer, with smaller numbers: the
    additions overflow the buffer twice, and the rest leaves on the timer. *)
Example run_three :
  Memory.run [Memory.OpAdd (Memory.Many [1; 2]%nat); Memory.OpAdd (Memory.Single 3%nat);
              Memory.OpAdd (Memory.Many [4; 5; 6; 7; 8]%nat); Memory.OpTimeout 2]
    (Memory.fresh_buffer 3 1000)
  = Some ((Memory.mk 3 1000 [] None, mkTimers [] 3), [[1; 2; 3]; [4; 5; 6]; [7; 8]]%nat).
Proof. reflexivity. Qed.

(** C6 as stated fails: [add([])] on an empty buffer starts the timer, so
    a timer is live while the buffer is empty. *)
Lemma add_empty_list_breaks_invariant :
  ∃ s f, Memory.run [Memory.OpAdd (Memory.Many ([] : list nat))] (Memory.fresh_buffer 2 1000)
         = Some (s, f) ∧ ¬ MemorySpec.buffer_invariant 2 s.
Proof.
  eexists _, _. split; [reflexivity|].
  intros [_ [Hlive _]]. simpl in Hlive.
  assert (Memory.live_timer
            (Memory.mk 2 1000 ([] : list nat) (Some 1%nat),
             mkTimers [(1%nat, FlushBound, 1000)] 2)) as H by done.
  apply Hlive in H. simpl in H. lia.
Qed.

Section Construction.
Import Receiver ReceiverSpec.

Lemma orZ_truthy x d : d ≠ 0 → truthyZ (Some (orZ x d)) = true.
Proof.
  intros Hd. unfold orZ. destruct x as [n|]; simpl.
  - destruct (n =? 0) eqn:E; simpl; [|by rewrite E].
    apply negb_true_iff, Z.eqb_neq, Hd.
  - apply negb_true_iff, Z.eqb_neq, Hd.
Qed.

Lemma constructor_validate o :
  throws (constructor (Some o)) ↔ throws (_validate (Some o)).
Proof.
  unfold constructor. destruct (_validate (Some o)) as [[]|msg] eqn:V.
  - split; [|intros [? ?]; done].
    destruct (truthyZ (o_bufferSize o)) eqn:B; [|intros [? ?]; done].
    unfold Memory.constructor, Memory._validate. cbn [Memory.o_bufferSize Memory.o_bufferTimeout bufferSize bufferTimeout].
    rewrite B, orZ_truthy by done. simpl. intros [? ?]; done.
  - split; intros _; by eexists.
Qed.

(** What the constructor rejects. For every options object, it throws if
    and only if [queueUrl] is missing, or [messageReceiver] is missing, or
    [batchSize] is given and lies outside [1,10], or both [bufferSize] and
    [batchSize] are given and [bufferSize <= batchSize]; otherwise it
    returns. An omitted [batchSize] is not replaced by its default 1 in
    the comparison with [bufferSize]. *)
Theorem constructor_throws_iff (o : Options) :
  throws (constructor (Some o)) ↔ configuration_error o.
Proof.
  rewrite constructor_validate. unfold _validate, configuration_error, throws.
  destruct (truthyS (o_queueUrl o)); simpl; [|split; [by left|by eexists]].
  destruct (o_messageReceiver o); simpl; [|split; [by right; left|by eexists]].
  destruct (o_batchSize o) as [n|], (o_bufferSize o) as [b|]; simpl.
  - destruct (n <? 1) eqn:E1; simpl.
    { split; [|by eexists]. intros _. right; right; left. exists n.
      apply Z.ltb_lt in E1. split; [done|lia]. }
    destruct (10 <? n) eqn:E2; simpl.
    { split; [|by eexists]. intros _. right; right; left. exists n.
      apply Z.ltb_lt in E2. split; [done|lia]. }
    apply Z.ltb_ge in E1, E2.
    destruct (b <=? n) eqn:E3.
    { split; [|by eexists]. intros _. right; right; right. exists b, n.
      apply Z.leb_le in E3. done. }
    apply Z.leb_gt in E3. split; [intros [? ?]; done|].
    intros [?|[?|[(? & [= <-] & ?)|(? & ? & [= <-] & [= <-] & ?)]]]; try done; lia.
  - destruct (n <? 1) eqn:E1; simpl.
    { split; [|by eexists]. intros _. right; right; left. exists n.
      apply Z.ltb_lt in E1. split; [done|lia]. }
    destruct (10 <? n) eqn:E2; simpl.
    { split; [|by eexists]. intros _. right; right; left. exists n.
      apply Z.ltb_lt in E2. split; [done|lia]. }
    apply Z.ltb_ge in E1, E2. split; [intros [? ?]; done|].
    intros [?|[?|[(? & [= <-] & ?)|(? & ? & ? & _)]]]; try done; lia.
  - split; [intros [? ?]; done|].
    intros [?|[?|[(? & ? & _)|(? & ? & _ & ? & _)]]]; done.
  - split; [intros [? ?]; done|].
    intros [?|[?|[(? & ? & _)|(? & ? & ? & _)]]]; done.
Qed.

(** C5, what the code does. With [batchSize] omitted and [bufferSize: 1],
    the capacity is not above the batch size the constructor stores, 1,
    which is a configuration error as the specification lists them. The
    constructor returns all the same, a receiver that polls for 1 message
    and buffers 1, while the same two values given explicitly are
    rejected: [_validate] compares [bufferSize] with [options.batchSize]
    as passed, and [1 <= undefined] is false. *)
Theorem default_batch_size_escapes_buffer_check :
  let o := mkOptions (Some "https://sqs/queue") true None None None None None None (Some 1) None in
  let o' :=
    mkOptions (Some "https://sqs/queue") true (Some 1) None None None None None (Some 1) None in
  specified_configuration_error o ∧
  ¬ throws (constructor (Some o)) ∧
  (∃ r, constructor (Some o) = Returned r ∧ batchSize r = 1 ∧ bufferSize r = Some 1 ∧
        Memory.bufferSize <$> buffer r = Some 1) ∧
  effective_batchSize o = effective_batchSize o' ∧
  o_bufferSize o = o_bufferSize o' ∧
  constructor (Some o') =
    Thrown "Invalid SQS [bufferSize]. Must be greater than [batchSize].".
Proof.
  split; [|split; [|split]].
  - right; right; right. exists 1. split; [done|]. vm_compute. done.
  - intros [msg H]. vm_compute in H. done.
  - eexists. split; [reflexivity|]. done.
  - done.
Qed.
End Construction.

Section ReceiverFacts.
Import Receiver ReceiverSpec Scenario.

Example plain_receiver_constructed : constructor (Some plain_options) = Returned plain_receiver.
Proof. reflexivity. Qed.

Example buffered_receiver_constructed :
  constructor (Some buffered_options) = Returned buffered_receiver.
Proof. reflexivity. Qed.

Lemma since_app w w' l : trace w' = trace w ++ l → since w w' = l.
Proof. unfold since. intros ->. by rewrite drop_app_length. Qed.

Lemma poll_effects_eq w :
  poll_effects w =
    if stopped (me w) then [Emit EvStopped]
    else [ReceiveMessage (receive_params (me w))].
Proof.
  unfold poll_effects. apply since_app. unfold _poll, field. simpl.
  by destruct (stopped (me w)).
Qed.

Lemma poll_trace w : trace (_poll ThisReceiver w) = trace w ++ poll_effects w.
Proof. rewrite poll_effects_eq. unfold _poll, field. simpl. by destruct (stopped (me w)). Qed.

Lemma poll_frame this w :
  me (_poll this w) = me w ∧ timers (_poll this w) = timers w ∧
  heap (_poll this w) = heap w ∧ acks (_poll this w) = acks w.
Proof. unfold _poll, field. destruct this; simpl; by destruct (stopped (me w)). Qed.


Lemma unbound_poll_throws w :
  _poll ThisTimer w =
    effect (Throw "TypeError: Cannot read property 'receiveMessage' of undefined") w.
Proof. reflexivity. Qed.

Lemma count_app p l1 l2 : count p (l1 ++ l2) = (count p l1 + count p l2)%nat.
Proof. unfold count. by rewrite List.filter_app, length_app. Qed.

Lemma count_poll_effects w :
  count is_delete (poll_effects w) = 0%nat ∧ count is_processed (poll_effects w) = 0%nat ∧
  count is_processing_error (poll_effects w) = 0%nat ∧ count is_error (poll_effects w) = 0%nat.
Proof. rewrite poll_effects_eq. by destruct (stopped (me w)). Qed.

Lemma poll_effects_polled w : poll_effects w = polled (me w).
Proof. apply poll_effects_eq. Qed.

Lemma poll_polled w : trace (_poll ThisReceiver w) = trace w ++ polled (me w).
Proof. rewrite <- poll_effects_polled. apply poll_trace. Qed.

Lemma poll_inflight w :
  inflight (_poll ThisReceiver w) = polled_inflight (me w) (inflight w) ∧
  heard (_poll ThisReceiver w) = heard w.
Proof. unfold _poll, field, polled_inflight. simpl. by destruct (stopped (me w)). Qed.

Lemma count_polled r :
  count is_delete (polled r) = 0%nat ∧ count is_processed (polled r) = 0%nat ∧
  count is_processing_error (polled r) = 0%nat ∧ count is_error (polled r) = 0%nat ∧
  count is_receive (polled r) = (if stopped r then 0 else 1)%nat.
Proof. unfold polled. by destruct (stopped r). Qed.

Lemma handleErrors_eq e w :
  _handleErrors e w =
    (if goes_on e (heard w) then Normal else Abrupt) (effect (report e (heard w)) w).
Proof.
  unfold _handleErrors, emit_error, goes_on, report, uncaught, emit.
  by destruct (error_constructor e), (heard w).
Qed.

(** What an acknowledgment with no message to delete does: the event on
    ['processing:error'], then a poll. *)
Lemma processing_error_then_poll e w :
  goes_on e (heard w) = true → report e (heard w) = Emit (EvProcessingError e) →
  let w' := and_then (_handleErrors e w) (_poll ThisReceiver) in
  since w w' = Emit (EvProcessingError e) :: polled (me w) ∧
  inflight w' = polled_inflight (me w) (inflight w) ∧
  acks w' = acks w ∧ me w' = me w ∧ timers w' = timers w ∧ heap w' = heap w ∧
  heard w' = heard w.
Proof.
  intros Hg Hr w'. unfold w'. rewrite handleErrors_eq, Hg, Hr. cbn [and_then].
  set (w1 := effect _ w).
  destruct (poll_frame ThisReceiver w1) as (Hme & Ht & Hh & Ha).
  destruct (poll_inflight w1) as (Hi & Hl).
  rewrite Hme, Ht, Hh, Ha, Hi, Hl. split; [|done].
  apply since_app. rewrite poll_polled. unfold w1. cbn [trace effect me].
  by rewrite <- app_assoc.
Qed.

(** C7. For every error value passed to the acknowledgment handle, the
    receiver emits one ['processing:error'] event and then polls: a
    running receiver issues one receive request with its own parameters,
    which is then in flight, and a stopped one emits ['stopped']. It
    issues no delete call, emits nothing on ['error'], whether ['error']
    has a listener or not, and registers no pending acknowledgment and no
    timer. *)
Theorem processing_failure_ack (w : World) (text : string) :
  let w' := deleteMessage (ArgError text) w in
  since w w' =
    Emit (EvProcessingError (mkError ProcessingError text))
      :: (if stopped (me w) then [Emit EvStopped]
          else [ReceiveMessage
                  (mkParams (Some (queueUrl (me w))) (Some (attributeNames (me w)))
                     (Some (messageAttributeNames (me w))) (Some (batchSize (me w)))
                     (waitTimeSeconds (me w)) (visibilityTimeout (me w)))]) ∧
  inflight w' = (if stopped (me w) then inflight w else S (inflight w)) ∧
  count is_delete (since w w') = 0%nat ∧
  count is_processing_error (since w w') = 1%nat ∧
  count is_error (since w w') = 0%nat ∧
  count is_receive (since w w') = (if stopped (me w) then 0 else 1)%nat ∧
  acks w' = acks w ∧ timers w' = timers w ∧ me w' = me w.
Proof.
  intros w'.
  destruct (processing_error_then_poll (mkError ProcessingError text) w eq_refl eq_refl)
    as (Hs & Hi & Ha & Hme & Ht & _).
  change (and_then _ _) with w' in Hs, Hi, Ha, Hme, Ht.
  rewrite Hs, Hi, Ha, Hme, Ht.
  destruct (count_polled (me w)) as (Hd & _ & Hpe & He & Hr).
  change (?x :: polled (me w)) with ([x] ++ polled (me w)).
  rewrite !count_app, Hd, Hpe, He, Hr. unfold polled, polled_inflight, receive_params.
  by destruct (stopped (me w)).
Qed.

Lemma processing_failure_ack_witness :
  let running := start (boot plain_receiver ∅) in
  let halted := stop running in
  since running (deleteMessage (ArgError "boom") running) =
    [Emit (EvProcessingError (mkError ProcessingError "boom"));
     ReceiveMessage (mkParams (Some "https://sqs/queue") (Some []) (Some []) (Some 1) None None)] ∧
  inflight (deleteMessage (ArgError "boom") running) = 2%nat ∧
  since halted (deleteMessage (ArgError "boom") halted) =
    [Emit (EvProcessingError (mkError ProcessingError "boom")); Emit EvStopped] ∧
  inflight (deleteMessage (ArgError "boom") halted) = 1%nat.
Proof.
  intros running halted.
  destruct (processing_failure_ack running "boom") as (H1 & H2 & _).
  destruct (processing_failure_ack halted "boom") as (H3 & H4 & _).
  split; [exact H1|]. split; [exact H2|]. split; [exact H3|exact H4].
Defined.

(** C1, what the code does. A receive failure that is not an
    authentication failure emits ['error'] and nothing else (with no
    listener on ['error'] the error is thrown instead): no receive
    request follows, no timer is set, and the receiver and its pending
    acknowledgments are as before. *)
Theorem generic_receive_failure_goes_idle (w : World) (n : nat) (err : SdkError) :
  inflight w = S n → is_authentication (code err) = false →
  let w' := step (ReceiveReply (ReceiveFailed err)) w in
  since w w' =
    [if heard w then Emit (EvError (mkError SQSError "SQS Receive Error"))
     else Throw "SQSError: SQS Receive Error"] ∧
  count is_receive (since w w') = 0%nat ∧
  inflight w' = n ∧ timers w' = timers w ∧ acks w' = acks w ∧ me w' = me w.
Proof.
  intros Hn Hauth w'.
  assert (w' = effect (if heard w then Emit (EvError (mkError SQSError "SQS Receive Error"))
                       else Throw "SQSError: SQS Receive Error") (set_inflight n w)) as ->.
  { unfold w'. cbn [step]. rewrite Hn. cbn [_internalMessageReceiver]. rewrite Hauth.
    rewrite handleErrors_eq. cbn. by destruct (heard w). }
  erewrite since_app; [|reflexivity]. by destruct (heard w).
Qed.

Lemma generic_receive_failure_goes_idle_witness :
  let w := start (boot plain_receiver ∅) in
  let w' := step (ReceiveReply (ReceiveFailed (mkSdkError (CodeNumber 500) "InternalError"))) w in
  inflight w = 1%nat ∧
  is_authentication (CodeNumber 500) = false ∧
  since w w' = [Emit (EvError (mkError SQSError "SQS Receive Error"))] ∧
  count is_receive (since w w') = 0%nat ∧
  idle w'.
Proof.
  intros w w'. split; [reflexivity|]. split; [reflexivity|].
  destruct (generic_receive_failure_goes_idle w 0
              (mkSdkError (CodeNumber 500) "InternalError") eq_refl eq_refl)
    as (Hs & Hc & Hi & Ht & Ha & _).
  split; [exact Hs|]. split; [exact Hc|].
  split; [exact Hi|].
  split; [exact (eq_trans (f_equal pending Ht) eq_refl)|exact (eq_trans Ha eq_refl)].
Defined.

Lemma authentication_failure_schedules (w : World) (err : SdkError) :
  is_authentication (code err) = true → heard w = true →
  let w' := _internalMessageReceiver (ReceiveFailed err) w in
  since w w' = [Emit (EvError (mkError SQSAuthenticationError "SQS authentication Error"))] ∧
  pending (timers w') =
    pending (timers w)
      ++ [(next_timer (timers w), PollUnbound, authenticationErrorTimeout (me w))] ∧
  inflight w' = inflight w.
Proof.
  intros Hauth Hl w'. unfold w'. cbn [_internalMessageReceiver]. rewrite Hauth.
  rewrite handleErrors_eq. cbn. rewrite Hl. cbn. split; [by apply since_app|done].
Qed.

(** C8, what the code does. After a receive failure with code 403 the
    receiver emits ['error'] and a timer is pending with the default delay
    of 10000 ms; when it expires, [_poll] runs on the timer object and
    throws: no receive request is issued and nothing is left to poll. *)
Theorem authentication_backoff_poll_is_unbound :
  let w0 := start (boot plain_receiver ∅) in
  let w1 := step (ReceiveReply (ReceiveFailed (mkSdkError (CodeNumber 403) "Forbidden"))) w0 in
  let w2 := step (TimerFires 1) w1 in
  since w0 w1 = [Emit (EvError (mkError SQSAuthenticationError "SQS authentication Error"))] ∧
  pending (timers w1) = [(1%nat, PollUnbound, 10000)] ∧
  inflight w1 = 0%nat ∧
  since w1 w2 =
    [Throw "TypeError: Cannot read property 'receiveMessage' of undefined"] ∧
  count is_receive (since w1 w2) = 0%nat ∧
  idle w2.
Proof. repeat split; reflexivity. Qed.

Lemma onFlush_fold fs : ∀ w,
  let w' := foldl (fun w f => _onFlush f w) w fs in
  trace w' = trace w ++ (CallMessageReceiver <$> fs) ∧ inflight w' = inflight w.
Proof.
  induction fs as [|f fs IH]; intros w; simpl.
  - by rewrite app_nil_r.
  - destruct (IH (_onFlush f w)) as [-> ->]. simpl. by rewrite <- app_assoc.
Qed.

Lemma count_calls p fs :
  (∀ f, p (CallMessageReceiver f) = false) → count p (CallMessageReceiver <$> fs) = 0%nat.
Proof. intros Hp. induction fs as [|f fs IH]; [done|]. unfold count in *. simpl. by rewrite Hp. Qed.

Lemma buffer_add_quiet msgs w :
  ∃ l, trace (buffer_add msgs w) = trace w ++ l ∧ count is_receive l = 0%nat ∧
       inflight (buffer_add msgs w) = inflight w.
Proof.
  unfold buffer_add. destruct (buffer (me w)) as [b|]; [|by eexists].
  destruct (Memory.add _ _) as [[[b' h'] fs]|].
  - edestruct (onFlush_fold fs) as [-> ->].
    eexists. split; [done|]. split; [|done]. by apply count_calls.
  - destruct (Memory.add_overflow _ _ _) as [[b' h'] fs].
    cbn [trace inflight effect].
    edestruct (onFlush_fold fs) as [-> ->].
    eexists. split; [by rewrite <- app_assoc|]. split; [|done].
    by rewrite count_app, count_calls.
Qed.

(** C2, what the code does. With [bufferSize] set, a successful receive
    of one or more messages emits ['message:received'] and hands the
    messages to the buffer, and no receive request follows: the poll
    callback given to [add] is dropped. *)
Theorem buffered_receive_does_not_poll
    (w : World) (n : nat) (m : Message) (ms : list Message) :
  inflight w = S n → truthyZ (bufferSize (me w)) = true →
  let w' := step (ReceiveReply (Received (Some (m :: ms)))) w in
  head (since w w') = Some (Emit (EvMessageReceived (m :: ms))) ∧
  count is_receive (since w w') = 0%nat ∧
  inflight w' = n.
Proof.
  intros Hn Hb w'. unfold w'. simpl. rewrite Hn.
  unfold _internalMessageProcessor. simpl. rewrite Hb.
  destruct (buffer_add_quiet (m :: ms)
              (emit (EvMessageReceived (m :: ms)) (set_inflight n w))) as (l & Ht & Hc & Hi).
  simpl in Ht. rewrite <- app_assoc in Ht. rewrite (since_app _ _ _ Ht).
  split; [done|]. split; [|done]. by rewrite count_app, Hc.
Qed.

Lemma buffered_receive_does_not_poll_witness :
  let w := start (boot buffered_receiver ∅) in
  let w' := step (ReceiveReply (Received (Some [msg "1"]))) w in
  inflight w = 1%nat ∧
  truthyZ (bufferSize (me w)) = true ∧
  since w w' = [Emit (EvMessageReceived [msg "1"])] ∧
  pending (timers w') = [(1%nat, FlushBound, 1000)] ∧
  count is_receive (since w w') = 0%nat ∧
  inflight w' = 0%nat.
Proof.
  intros w w'. split; [reflexivity|]. split; [reflexivity|].
  split; [reflexivity|]. split; [reflexivity|].
  exact (proj2 (buffered_receive_does_not_poll w 0 (msg "1") [] eq_refl eq_refl)).
Defined.

(** Chunks *)





Lemma batch_loop_spec copy id fuel : ∀ w p msgs,
  heap w !! copy = Some msgs → (length msgs ≤ fuel)%nat →
  ∃ w', batch_loop fuel copy id w p = (w', (p + length (chunks fuel msgs))%nat) ∧
        trace w' = trace w ++ (batch_call id (me w) <$> chunks fuel msgs) ∧
        heap w' = <[copy := []]> (heap w) ∧
        me w' = me w ∧ acks w' = acks w ∧ inflight w' = inflight w ∧ timers w' = timers w ∧
        heard w' = heard w.
Proof.
  induction fuel as [|fuel IH]; intros w p msgs Hh Hl.
  - destruct msgs; [|simpl in Hl; lia]. exists w. simpl.
    rewrite Nat.add_0_r, app_nil_r, insert_id by done. done.
  - destruct msgs as [|m ms].
    + exists w. simpl. rewrite Hh. simpl.
      rewrite Nat.add_0_r, app_nil_r, insert_id by done. done.
    + cbn [batch_loop chunks]. rewrite Hh.
      set (w2 := effect _ (set_heap _ w)).
      destruct (IH w2 (S p) (drop 10 (m :: ms)))
        as (w' & Hb & Ht & Hhp & Hme & Ha & Hi & Htm & Hhe).
      * unfold w2. simpl. by rewrite lookup_insert_eq.
      * rewrite length_drop. simpl in *. lia.
      * exists w'. rewrite Hb, Ht, Hhp, Hme, Ha, Hi, Htm, Hhe. unfold w2. simpl.
        rewrite insert_insert_eq, <- app_assoc. split_and!; try done.
        f_equal. lia.
Qed.

Lemma batch_rejection_class r e : batch_rejection r = Some e → error_constructor e = SQSError.
Proof. destruct r as [err|[|f fs]]; simpl; intros [= <-]; done. Qed.

(** No reply rejects exactly when every chunk came back without an error
    and with an empty [Failed] list. *)
Lemma first_rejection_none rs :
  first_rejection rs = None ↔ Forall (fun r => r = BatchData []) rs.
Proof.
  induction rs as [|r rs IH]; [by split; [constructor|]|].
  cbn [first_rejection]. destruct r as [err|[|f fs]]; cbn [batch_rejection].
  - split; [done|]. by inversion 1.
  - rewrite IH. split; [by constructor|]. by inversion 1.
  - split; [done|]. by inversion 1.
Qed.

(** The callback of an acknowledgment: the event of the outcome, then a
    poll, unless the outcome is an error thrown for want of a listener. *)
Lemma delete_callback_spec orig err w :
  let w' := delete_callback orig err w in
  trace w' = trace w ++
    match err with
    | Some e =>
        report e (heard w) :: (if goes_on e (heard w) then polled (me w) else [])
    | None => Emit (EvMessageProcessed orig) :: polled (me w)
    end ∧
  inflight w' =
    match err with
    | Some e =>
        if goes_on e (heard w) then polled_inflight (me w) (inflight w) else inflight w
    | None => polled_inflight (me w) (inflight w)
    end ∧
  heap w' = heap w ∧ acks w' = acks w ∧ me w' = me w ∧ heard w' = heard w ∧
  timers w' = timers w.
Proof.
  unfold delete_callback, _messageProcessed.
  destruct err as [e|]; cbn zeta.
  - rewrite handleErrors_eq. destruct (goes_on e (heard w)); cbn [and_then]; [|done].
    set (w1 := effect _ w).
    destruct (poll_frame ThisReceiver w1) as (Hme & Ht & Hh & Ha).
    destruct (poll_inflight w1) as (Hi & Hl).
    rewrite poll_polled, Hme, Ht, Hh, Ha, Hi, Hl. unfold w1. cbn [trace effect me].
    by rewrite <- app_assoc.
  - set (w1 := emit _ w).
    destruct (poll_frame ThisReceiver w1) as (Hme & Ht & Hh & Ha).
    destruct (poll_inflight w1) as (Hi & Hl).
    rewrite poll_polled, Hme, Ht, Hh, Ha, Hi, Hl. unfold w1, emit. cbn [trace effect me].
    by rewrite <- app_assoc.
Qed.

(** The entries of a delete-batch call are those of the request, and a
    reply rejects its promise exactly when the chunk failed. *)
Lemma batch_call_request id r c :
  batch_call id r c = delete_batch_request id (queueUrl r) c.
Proof. reflexivity. Qed.

Lemma batch_rejection_failed r :
  batch_rejection r =
    if chunk_failed r then Some (mkError SQSError (failure_text r)) else None.
Proof. by destruct r as [err|[|f fs]]. Qed.

Lemma first_rejection_find rs :
  first_rejection rs = (fun r => mkError SQSError (failure_text r)) <$> List.find chunk_failed rs.
Proof.
  induction rs as [|r rs IH]; [done|].
  cbn [first_rejection List.find]. rewrite batch_rejection_failed.
  by destruct (chunk_failed r).
Qed.

Lemma steps_cons i inputs w : steps (i :: inputs) w = steps inputs (step i w).
Proof. reflexivity. Qed.

Lemma settled_replies id rs : ∀ w orig k,
  acks w !! id = Some (AckBatch orig k true) →
  trace (steps (BatchReply id <$> rs) w) = trace w ∧
  heap (steps (BatchReply id <$> rs) w) = heap w ∧
  inflight (steps (BatchReply id <$> rs) w) = inflight w.
Proof.
  induction rs as [|r rs IH]; intros w orig k Ha; [done|].
  rewrite fmap_cons, steps_cons. cbn [step]. unfold on_batch_reply. rewrite Ha.
  destruct k as [|n]; [by eapply IH|].
  destruct (batch_rejection r) as [e|]; simpl.
  - edestruct (IH (set_acks (<[id:=AckBatch orig n true]> (acks w)) w)) as (-> & -> & ->);
      [|done].
    simpl. by rewrite lookup_insert_eq.
  - edestruct (IH (set_acks (<[id:=AckBatch orig n true]> (acks w)) w)) as (-> & -> & ->);
      [|done].
    simpl. by rewrite lookup_insert_eq.
Qed.

Lemma rejected_callback orig w r :
  let w' := delete_callback orig (Some (mkError SQSError (failure_text r))) w in
  trace w' = trace w ++ batch_outcome orig w (Some r) ∧
  inflight w' = batch_outcome_inflight w (Some r) ∧
  heap w' = heap w ∧ acks w' = acks w.
Proof.
  destruct (delete_callback_spec orig (Some (mkError SQSError (failure_text r))) w)
    as (Ht & Hi & Hh & Ha & _).
  cbv zeta. rewrite Ht, Hi, Hh, Ha. unfold batch_outcome, batch_outcome_inflight.
  unfold report, goes_on, uncaught. cbn [error_constructor error_message class_name].
  by destruct (heard w).
Qed.

Lemma batch_replies id rs : ∀ w orig,
  acks w !! id = Some (AckBatch orig (length rs) false) → rs ≠ [] →
  trace (steps (BatchReply id <$> rs) w) =
    trace w ++ batch_outcome orig w (List.find chunk_failed rs) ∧
  inflight (steps (BatchReply id <$> rs) w) =
    batch_outcome_inflight w (List.find chunk_failed rs) ∧
  heap (steps (BatchReply id <$> rs) w) = heap w.
Proof.
  induction rs as [|r rs IH]; intros w orig Ha Hne; [done|].
  rewrite fmap_cons, steps_cons. cbn [step List.find]. unfold on_batch_reply.
  rewrite Ha. cbn [length]. rewrite batch_rejection_failed.
  destruct (chunk_failed r) eqn:Hr.
  - cbn match.
    set (w1 := set_acks _ w).
    destruct (rejected_callback orig w1 r) as (Ht & Hi & Hh & Hacks).
    edestruct (settled_replies id rs
                 (delete_callback orig (Some (mkError SQSError (failure_text r))) w1))
      as (-> & -> & ->).
    { rewrite Hacks. unfold w1. simpl. by rewrite lookup_insert_eq. }
    by rewrite Ht, Hi, Hh.
  - cbn match. rewrite orb_false_l.
    destruct rs as [|r' rs'].
    + cbn [length Nat.eqb List.find]. unfold steps. rewrite fmap_nil. cbn [foldl].
      destruct (delete_callback_spec orig None
                  (set_acks (<[id:=AckBatch orig 0 true]> (acks w)) w))
        as (Ht & Hi & Hh & _).
      by rewrite Ht, Hi, Hh.
    + cbn [length Nat.eqb].
      set (w1 := set_acks _ w).
      destruct (IH w1 orig) as (-> & -> & ->); [|done|done].
      unfold w1. simpl. by rewrite lookup_insert_eq.
Qed.


Lemma deleteMessage_array w l msgs :
  heap w !! l = Some msgs → (1 < length msgs)%nat →
  let cs := chunks (length msgs) msgs in
  let w' := deleteMessage (ArgArray l) w in
  trace w' = trace w ++ (batch_call (new_ack w) (me w) <$> cs) ∧
  acks w' = <[new_ack w := AckBatch (ArgArray l) (length cs) false]> (acks w) ∧
  heap w' = <[fresh (dom (heap w)) := []]> (heap w) ∧
  me w' = me w ∧ inflight w' = inflight w ∧ heard w' = heard w.
Proof.
  intros Hh Hl cs w'. unfold w', deleteMessage. rewrite Hh.
  destruct msgs as [|m1 [|m2 ms]]; [simpl in Hl; lia..|].
  set (msgs := m1 :: m2 :: ms) in *.
  set (copy := fresh (dom (heap w))).
  unfold _deleteMessageBatch.
  set (w0 := set_heap (<[copy:=msgs]> (heap w)) w).
  assert (heap w0 !! copy = Some msgs) as Hc by (unfold w0; simpl; by rewrite lookup_insert_eq).
  rewrite Hc. change (default [] (Some msgs)) with msgs. cbv zeta.
  destruct (batch_loop_spec copy (new_ack w0) (length msgs) w0 0 msgs Hc)
    as (w1 & -> & Ht & Hhp & Hme & Ha & Hi & _ & Hhe); [done|].
  fold cs. cbn [Nat.add trace acks heap me inflight heard set_acks].
  rewrite Ht, Ha, Hhp, Hme, Hi, Hhe. unfold w0. cbn [trace acks heap me inflight heard set_heap].
  by rewrite insert_insert_eq.
Qed.



Lemma on_batch_reply_heap id r w : heap (on_batch_reply id r w) = heap w.
Proof.
  unfold on_batch_reply.
  destruct (acks w !! id) as [[orig|orig [|n] settled]|]; try done.
  destruct (batch_rejection r), settled; try done; cbn zeta;
    try destruct (Nat.eqb n 0); try done;
    match goal with
    | |- context [delete_callback ?o ?e ?x] =>
        by destruct (delete_callback_spec o e x) as (_ & _ & -> & _)
    end.
Qed.

Lemma batch_replies_heap id rs : ∀ w, heap (steps (BatchReply id <$> rs) w) = heap w.
Proof.
  induction rs as [|r rs IH]; intros w; [done|].
  rewrite fmap_cons, steps_cons, IH. apply on_batch_reply_heap.
Qed.


(** C10. Acknowledging an array of several messages leaves the caller's
    array as it was: the chunks are spliced off a copy, which ends up
    empty, every array the application holds keeps its contents through
    the delete calls and their replies, and the ['message:processed']
    event carries the caller's array. *)
Theorem acknowledge_keeps_the_array
    (w : World) (l : nat) (msgs : list Message) (rs : list BatchResult) :
  heap w !! l = Some msgs → (1 < length msgs)%nat →
  let w1 := deleteMessage (ArgArray l) w in
  let w2 := steps (BatchReply (new_ack w) <$> rs) w1 in
  heap w1 !! l = Some msgs ∧
  heap w1 !! fresh (dom (heap w)) = Some [] ∧
  heap w2 !! l = Some msgs ∧
  (∀ l' xs, heap w !! l' = Some xs → heap w2 !! l' = Some xs) ∧
  (length rs = length (chunks (length msgs) msgs) → first_rejection rs = None →
     since w1 w2 = Emit (EvMessageProcessed (ArgArray l)) :: poll_effects w).
Proof.
  intros Hh Hl w1 w2.
  destruct (deleteMessage_array w l msgs Hh Hl) as (Ht & Ha & Hhp & Hme & _).
  fold w1 in Ht, Ha, Hhp, Hme.
  assert (∀ l' xs, heap w !! l' = Some xs → heap w1 !! l' = Some xs) as Hframe.
  { intros l' xs Hl'. rewrite Hhp, lookup_insert_ne; [done|].
    intros <-. apply (is_fresh (dom (heap w))). apply elem_of_dom. by eexists. }
  assert (heap w2 = heap w1) as Hh2 by apply batch_replies_heap.
  split; [by apply Hframe|]. split; [by rewrite Hhp, lookup_insert_eq|].
  rewrite Hh2. split; [by apply Hframe|]. split; [done|].
  intros Hrs Hok.
  destruct (batch_replies (new_ack w) rs w1 (ArgArray l)) as [Ht2 _].
  { rewrite Ha, lookup_insert_eq, Hrs. done. }
  { intros ->. destruct msgs; [simpl in Hl; lia|done]. }
  fold w2 in Ht2. rewrite (since_app _ _ _ Ht2).
  rewrite first_rejection_find in Hok.
  destruct (List.find chunk_failed rs); [done|].
  unfold batch_outcome. by rewrite Hme, poll_effects_polled.
Qed.
End ReceiverFacts.

Section StoppedReceiver.
Import Receiver ReceiverSpec.

Lemma calm_same w w' :
  trace w' = trace w → stopped (me w') = true → calm w w'.
Proof. intros Ht Hs. exists []. by rewrite app_nil_r. Qed.

Lemma calm_trans w1 w2 w3 : calm w1 w2 → calm w2 w3 → calm w1 w3.
Proof.
  intros (l1 & Ht1 & Hc1 & _) (l2 & Ht2 & Hc2 & Hs). exists (l1 ++ l2).
  rewrite Ht2, Ht1, <- app_assoc, count_app, Hc1, Hc2. done.
Qed.

Lemma calm_effect e w :
  is_receive e = false → stopped (me w) = true → calm w (effect e w).
Proof. intros He Hs. exists [e]. unfold count. simpl. by rewrite He. Qed.

Lemma calm_poll this w : stopped (me w) = true → calm w (_poll this w).
Proof.
  intros Hs. destruct this.
  - unfold _poll, field. simpl. rewrite Hs. by apply calm_effect.
  - rewrite unbound_poll_throws. by apply calm_effect.
Qed.

Lemma report_no_receive e b : is_receive (report e b) = false.
Proof. unfold report, uncaught. by destruct (error_constructor e), b. Qed.

Lemma calm_handleErrors e w : stopped (me w) = true → calm w (after (_handleErrors e w)).
Proof.
  intros Hs. rewrite handleErrors_eq.
  destruct (goes_on e (heard w)); cbn [after]; apply calm_effect; try done;
    apply report_no_receive.
Qed.

Lemma calm_and_then e w k :
  stopped (me w) = true → (∀ x, stopped (me x) = true → calm x (k x)) →
  calm w (and_then (_handleErrors e w) k).
Proof.
  intros Hs Hk. rewrite handleErrors_eq.
  destruct (goes_on e (heard w)); cbn [and_then].
  - eapply calm_trans; [apply calm_effect; [apply report_no_receive|done]|].
    by apply Hk.
  - apply calm_effect; [apply report_no_receive|done].
Qed.

Lemma calm_delete_callback orig err w :
  stopped (me w) = true → calm w (delete_callback orig err w).
Proof.
  intros Hs. unfold delete_callback, _messageProcessed. destruct err as [e|].
  - apply calm_and_then; [done|]. intros x Hx. by apply calm_poll.
  - eapply calm_trans; [by apply (calm_effect (Emit (EvMessageProcessed orig)))|].
    by apply calm_poll.
Qed.

Lemma calm_onFlush fs : ∀ w,
  stopped (me w) = true → calm w (foldl (fun w f => _onFlush f w) w fs).
Proof.
  induction fs as [|f fs IH]; intros w Hs; [by apply calm_same|].
  simpl. eapply calm_trans; [by apply (calm_effect (CallMessageReceiver f))|].
  by apply IH.
Qed.

Lemma calm_buffer_add msgs w : stopped (me w) = true → calm w (buffer_add msgs w).
Proof.
  intros Hs. unfold buffer_add. destruct (buffer (me w)) as [b|]; [|by apply calm_effect].
  destruct (Memory.add _ _) as [[[b' h'] fs]|].
  - eapply calm_trans; [|by apply calm_onFlush]. by apply calm_same.
  - destruct (Memory.add_overflow _ _ _) as [[b' h'] fs].
    set (w1 := set_timers h' _).
    assert (calm w (foldl (fun w f => _onFlush f w) w1 fs)) as H.
    { eapply calm_trans; [|by apply calm_onFlush]. by apply calm_same. }
    eapply calm_trans; [exact H|]. apply calm_effect; [done|].
    by destruct H as (_ & _ & _ & ?).
Qed.

Lemma calm_batch_loop copy id fuel : ∀ w p,
  stopped (me w) = true → calm w (batch_loop fuel copy id w p).1.
Proof.
  induction fuel as [|fuel IH]; intros w p Hs; [by apply calm_same|].
  cbn [batch_loop]. destruct (heap w !! copy) as [[|m ms]|]; try by apply calm_same.
  eapply calm_trans; [|by apply IH]. by exists [DeleteMessageBatch id (queueUrl (me w))
                                                  (entry_of <$> take 10 (m :: ms))].
Qed.

Lemma calm_deleteMessageOne m orig w :
  stopped (me w) = true → calm w (_deleteMessageOne m orig w).
Proof.
  intros Hs. unfold _deleteMessageOne.
  destruct (String.eqb _ _); [by apply calm_effect|].
  by eexists [DeleteMessage _ _ _].
Qed.

Lemma calm_deleteMessage a w : stopped (me w) = true → calm w (deleteMessage a w).
Proof.
  intros Hs. destruct a as [|text|m|l]; cbn [deleteMessage].
  - apply calm_and_then; [done|]. intros x Hx. by apply calm_poll.
  - apply calm_and_then; [done|]. intros x Hx. by apply calm_poll.
  - by apply calm_deleteMessageOne.
  - destruct (heap w !! l) as [msgs|]; [|by apply calm_same].
    assert (calm w (_deleteMessageBatch (fresh (dom (heap w))) (ArgArray l)
                      (set_heap (<[fresh (dom (heap w)):=msgs]> (heap w)) w))) as Hb.
    { unfold _deleteMessageBatch. cbv zeta.
      set (w0 := set_heap _ w).
      pose proof (calm_batch_loop (fresh (dom (heap w))) (new_ack w0)
                    (length (default [] (heap w0 !! fresh (dom (heap w))))) w0 0 Hs) as Hl.
      destruct (batch_loop _ _ _ w0 0) as [w1 k]; simpl in Hl.
      eapply calm_trans; [exact Hl|]. apply calm_same; [done|].
      by destruct Hl as (_ & _ & _ & ?). }
    destruct msgs as [|m [|m' ms]]; try exact Hb. by apply calm_deleteMessageOne.
Qed.

(** With the receiver stopped, no input of the event loop other than
    [start()] makes it issue a receive request, and it stays stopped. *)
Lemma stopped_world_stays_silent (i : Input) (w : World) :
  stopped (me w) = true → i ≠ Start → calm w (step i w).
Proof.
  intros Hs Hi. destruct i as [| |r|a|id err|id r|id|on|id]; cbn [step]; try done.
  - by apply calm_same.
  - destruct (inflight w) as [|n]; [by apply calm_same|].
    eapply calm_trans; [by apply (calm_same w (set_inflight n w))|].
    destruct r as [err|[[|m ms]|]]; cbn [_internalMessageReceiver];
      try (by apply calm_poll).
    + destruct (is_authentication (code err)); [|by apply calm_handleErrors].
      apply calm_and_then; [done|]. intros x Hx. by apply calm_same.
    + unfold _internalMessageProcessor. cbv zeta.
      eapply calm_trans; [by apply (calm_effect (Emit (EvMessageReceived (m :: ms))))|].
      destruct (truthyZ _); [by apply calm_buffer_add|by apply calm_effect].
  - by apply calm_deleteMessage.
  - unfold on_delete_reply. destruct (acks w !! id) as [[orig|]|]; try by apply calm_same.
    eapply calm_trans; [by apply (calm_same w (set_acks (delete id (acks w)) w))|].
    destruct err; by apply calm_delete_callback.
  - unfold on_batch_reply.
    destruct (acks w !! id) as [[|orig [|n] settled]|]; try by apply calm_same.
    destruct (batch_rejection r) as [e|], settled; cbv zeta;
      try destruct (Nat.eqb n 0); try (by apply calm_same);
      match goal with
      | |- calm _ (delete_callback _ _ ?x) =>
          apply (calm_trans _ x); [by apply calm_same|by apply calm_delete_callback]
      end.
  - unfold on_timer. destruct (expire id (timers w)) as [[[] h]|]; try by apply calm_same.
    + destruct (buffer (me w)) as [b|]; [|by apply calm_same].
      destruct (Memory._flush (b, h)) as [[b' h'] fs].
      eapply calm_trans; [|by apply calm_onFlush]. by apply calm_same.
    + apply (calm_trans _ (set_timers h w)); [by apply calm_same|by apply calm_poll].
  - by apply calm_same.
  - unfold on_microtask.
    destruct (acks w !! id) as [[orig|orig [|n] []]|]; try by apply calm_same.
    match goal with
    | |- calm _ (delete_callback _ _ ?x) =>
        apply (calm_trans _ x); [by apply calm_same|by apply calm_delete_callback]
    end.
Qed.
(** What holds of every stopped receiver. After [stop()] the flag is set
    and a poll of the receiver emits ['stopped'] and issues no receive
    call; [stop()] leaves the receive in flight, the timers, the pending
    acknowledgments and the trace as they are; and in every state with
    [stopped = true] a poll of the receiver emits ['stopped'], a poll
    issues no receive request whatever [this] it runs on, and no input of
    the event loop other than [start()] makes the receiver issue one. *)
Theorem stopped_receiver_never_receives (w : World) (this : This) (i : Input) :
  stopped (me (stop w)) = true ∧
  since (stop w) (_poll ThisReceiver (stop w)) = [Emit EvStopped] ∧
  inflight (_poll ThisReceiver (stop w)) = inflight w ∧
  (inflight (stop w) = inflight w ∧ timers (stop w) = timers w ∧
   acks (stop w) = acks w ∧ trace (stop w) = trace w) ∧
  (stopped (me w) = true →
     since w (_poll ThisReceiver w) = [Emit EvStopped] ∧
     count is_receive (since w (_poll this w)) = 0%nat ∧
     inflight (_poll this w) = inflight w ∧
     (i ≠ Start →
        count is_receive (since w (step i w)) = 0%nat ∧ stopped (me (step i w)) = true)).
Proof.
  split; [done|]. split; [by apply since_app|]. split; [done|]. split; [done|].
  intros Hs. split.
  { erewrite since_app; [|apply poll_trace]. by rewrite poll_effects_eq, Hs. }
  split.
  { destruct (calm_poll this w Hs) as (l & Ht & Hc & _). by rewrite (since_app _ _ _ Ht). }
  split.
  { destruct this; [|done]. unfold _poll, field. simpl. by rewrite Hs. }
  intros Hi. destruct (stopped_world_stays_silent i w Hs Hi) as (l & Ht & Hc & Hs').
  by rewrite (since_app _ _ _ Ht).
Qed.

Lemma stopped_receiver_never_receives_witness :
  let w := stop (start (boot Scenario.plain_receiver ∅)) in
  let i := ReceiveReply (Received None) in
  stopped (me w) = true ∧
  i ≠ Start ∧
  since w (_poll ThisReceiver w) = [Emit EvStopped] ∧
  since w (step i w) = [Emit EvStopped] ∧
  count is_receive (since w (step i w)) = 0%nat.
Proof.
  intros w i.
  assert (stopped (me w) = true) as Hs by reflexivity.
  assert (i ≠ Start) as Hi by discriminate.
  split; [exact Hs|]. split; [exact Hi|].
  destruct (stopped_receiver_never_receives w ThisReceiver i)
    as (_ & _ & _ & _ & Hstopped).
  destruct (Hstopped Hs) as (Hpoll & _ & _ & Hstep).
  split; [exact Hpoll|]. split; [reflexivity|]. exact (proj1 (Hstep Hi)).
Defined.

(** C9, what the code does. When [stop()] is called while the timer of
    an authentication failure is pending, the flag is set and nothing is
    in flight, so the very next poll decision is that of the timer. It is
    the unbound [_poll] also met in C8: it runs on the timer object, where
    [stopped] reads [undefined], and throws on [this.sqs]. No receive
    request is issued, but ['stopped'] is not emitted, then or later,
    since nothing is left that would poll; a poll of the receiver itself
    would have emitted it. *)
Theorem stop_during_backoff_emits_no_stopped :
  let w0 := start (boot Scenario.plain_receiver ∅) in
  let w1 := step (ReceiveReply (ReceiveFailed (mkSdkError (CodeNumber 403) "Forbidden"))) w0 in
  let w2 := step Stop w1 in
  let w3 := step (TimerFires 1) w2 in
  stopped (me w2) = true ∧
  pending (timers w2) = [(1%nat, PollUnbound, 10000)] ∧
  inflight w2 = 0%nat ∧
  since w2 w3 = [Throw "TypeError: Cannot read property 'receiveMessage' of undefined"] ∧
  trace w3 =
    [ReceiveMessage (receive_params Scenario.plain_receiver);
     Emit (EvError (mkError SQSAuthenticationError "SQS authentication Error"));
     Throw "TypeError: Cannot read property 'receiveMessage' of undefined"] ∧
  count is_stopped (trace w3) = 0%nat ∧
  count is_receive (since w2 w3) = 0%nat ∧
  idle w3 ∧
  since w2 (_poll ThisReceiver w2) = [Emit EvStopped].
Proof. repeat split; reflexivity. Qed.
End StoppedReceiver.

Section AcknowledgmentScenario.
Import Receiver ReceiverSpec Scenario.


(** The same acknowledgment when every chunk succeeds. *)
Example every_chunk_succeeds :
  let w := holding_twelve in
  let w1 := deleteMessage (ArgArray 7) w in
  let w2 := steps (BatchReply (new_ack w) <$> [BatchData []; BatchData []]) w1 in
  since w1 w2 =
    [Emit (EvMessageProcessed (ArgArray 7));
     ReceiveMessage
       (mkParams (Some "https://sqs/queue") (Some []) (Some []) (Some 1) None None)] ∧
  inflight w2 = S (inflight w).
Proof. split; reflexivity. Qed.


Lemma acknowledge_keeps_the_array_witness :
  let w := holding_twelve in
  let w1 := deleteMessage (ArgArray 7) w in
  let w2 := steps (BatchReply (new_ack w) <$> [BatchData []; BatchData []]) w1 in
  heap w !! 7%nat = Some twelve ∧
  (1 < length twelve)%nat ∧
  heap w1 !! 7%nat = Some twelve ∧
  heap w2 !! 7%nat = Some twelve ∧
  since w1 w2 =
    [Emit (EvMessageProcessed (ArgArray 7)); ReceiveMessage (receive_params plain_receiver)].
Proof.
  intros w w1 w2.
  assert (heap w !! 7%nat = Some twelve) as Hh by reflexivity.
  assert (1 < length twelve)%nat as Hl by (simpl; lia).
  split; [exact Hh|]. split; [exact Hl|].
  destruct (acknowledge_keeps_the_array w 7 twelve [BatchData []; BatchData []] Hh Hl)
    as (H1 & _ & H2 & _ & Hok).
  split; [exact H1|]. split; [exact H2|].
  exact (Hok eq_refl eq_refl).
Defined.

(** The same acknowledgment when the second chunk is rejected. *)
Example second_chunk_rejected :
  let w := holding_twelve in
  let w1 := deleteMessage (ArgArray 7) w in
  let w2 := steps (BatchReply (new_ack w) <$>
                     [BatchData []; BatchFailed (mkSdkError CodeUndefined "Throttled")]) w1 in
  since w w1 =
    [delete_batch_request 0 "https://sqs/queue" (take 10 twelve);
     delete_batch_request 0 "https://sqs/queue" (drop 10 twelve)] ∧
  since w1 w2 =
    [Emit (EvError (mkError SQSError "SQS delete message batch failed with error: Throttled"));
     ReceiveMessage (receive_params plain_receiver)].
Proof. split; reflexivity. Qed.
End AcknowledgmentScenario.

(** * Further properties of the buffer *)

Section MemoryCoverage.
Context {A : Type}.
Import Memory MemorySpec Batches.
Implicit Types (b : Memory.t A) (h : Timers).

Lemma flush_shape b h :
  ∃ b' h', _flush (b, h) = ((b', h'), [items b]) ∧
           bufferSize b' = bufferSize b ∧ bufferTimeout b' = bufferTimeout b ∧
           items b' = [] ∧ timerId b' = None.
Proof.
  unfold _flush, _stopTimer. destruct (timerId b) as [id|] eqn:E; simpl.
  - eexists _, _. split; [reflexivity|]. done.
  - eexists _, _. split; [reflexivity|]. done.
Qed.

Lemma startTimer_shape b h :
  ∃ b' h', _startTimer (b, h) = (b', h') ∧
           bufferSize b' = bufferSize b ∧ bufferTimeout b' = bufferTimeout b ∧
           items b' = items b.
Proof.
  unfold _startTimer. destruct (timerId b); simpl; eexists _, _; (split; [reflexivity|done]).
Qed.

Lemma add_many_full cap fuel : ∀ xs b h,
  1 ≤ cap → bufferSize b = cap → Z.of_nat (length (items b)) < cap →
  (length xs < fuel)%nat →
  ∃ b' h' f, add_fuel fuel (Many xs) (b, h) = Some ((b', h'), f) ∧
             bufferSize b' = cap ∧ Z.of_nat (length (items b')) < cap ∧
             Forall (full cap) f ∧ concat f ++ items b' = items b ++ xs.
Proof.
  induction fuel as [|fuel IH]; intros xs b h Hcap Hc Hlen Hfuel; [lia|].
  cbn [add_fuel]. rewrite Hc.
  destruct (cap <? Z.of_nat (length (items b)) + Z.of_nat (length xs)) eqn:Hover.
  - apply Z.ltb_lt in Hover.
    set (a := Z.to_nat (cap - Z.of_nat (length (items b)))).
    rewrite slice_prefix, slice_from_suffix by lia. fold a.
    destruct (flush_shape (set_items (items b ++ take a xs) b) h)
      as (b1 & h1 & -> & Hc1 & _ & Hi1 & _).
    destruct (IH (drop a xs) b1 h1) as (b2 & h2 & f2 & -> & Hc2 & Hl2 & Hf2 & Hcat);
      [done|by rewrite Hc1|rewrite Hi1; simpl; lia|rewrite length_drop; lia|].
    eexists _, _, _. split; [reflexivity|]. split; [done|]. split; [done|]. split.
    + constructor; [|done]. unfold full. cbn [items set_items].
      rewrite length_app, length_take. lia.
    + cbn [items set_items app concat]. rewrite <- !app_assoc, Hcat, Hi1. simpl.
      by rewrite take_drop.
  - apply Z.ltb_ge in Hover.
    destruct (Z.of_nat (length (items b)) + Z.of_nat (length xs) =? cap) eqn:Hfull.
    + apply Z.eqb_eq in Hfull.
      destruct (flush_shape (set_items (items b ++ xs) b) h)
        as (b1 & h1 & -> & Hc1 & _ & Hi1 & _).
      eexists _, _, _. split; [reflexivity|]. split; [by rewrite Hc1|].
      split; [rewrite Hi1; simpl; lia|]. split.
      * constructor; [|constructor]. unfold full. cbn [items set_items].
        rewrite length_app. lia.
      * cbn [items set_items concat]. by rewrite Hi1, !app_nil_r.
    + apply Z.eqb_neq in Hfull.
      destruct (startTimer_shape (set_items (items b ++ xs) b) h)
        as (b1 & h1 & -> & Hc1 & _ & Hi1).
      eexists _, _, _. split; [reflexivity|]. split; [by rewrite Hc1|].
      split; [rewrite Hi1; cbn [items set_items]; rewrite length_app; lia|].
      split; [constructor|]. by rewrite Hi1.
Qed.

Lemma add_full cap a b h :
  1 ≤ cap → bufferSize b = cap → Z.of_nat (length (items b)) < cap →
  ∃ b' h' f, add a (b, h) = Some ((b', h'), f) ∧
             bufferSize b' = cap ∧ Z.of_nat (length (items b')) < cap ∧
             Forall (full cap) f ∧ concat f ++ items b' = items b ++ arg_items a.
Proof.
  intros Hcap Hc Hlen. destruct a as [x|xs].
  - unfold add. cbn [arg_items length Nat.add add_fuel items bufferSize set_items].
    rewrite Hc.
    destruct (Z.of_nat (length (items b ++ [x])) =? cap) eqn:Hfull.
    + apply Z.eqb_eq in Hfull.
      destruct (flush_shape (set_items (items b ++ [x]) b) h)
        as (b1 & h1 & -> & Hc1 & _ & Hi1 & _).
      eexists _, _, _. split; [reflexivity|]. split; [by rewrite Hc1|].
      split; [rewrite Hi1; simpl; lia|]. split.
      * constructor; [|constructor]. done.
      * cbn [items set_items concat]. by rewrite Hi1, !app_nil_r.
    + apply Z.eqb_neq in Hfull. rewrite length_app in Hfull. cbn [length] in Hfull.
      destruct (startTimer_shape (set_items (items b ++ [x]) b) h)
        as (b1 & h1 & -> & Hc1 & _ & Hi1).
      eexists _, _, _. split; [reflexivity|]. split; [by rewrite Hc1|].
      split; [rewrite Hi1; cbn [items set_items]; rewrite length_app; cbn [length]; lia|].
      split; [constructor|]. by rewrite Hi1.
  - apply add_many_full; try done. simpl. lia.
Qed.

Lemma run_adds_full cap adds : ∀ b h,
  1 ≤ cap → bufferSize b = cap → Z.of_nat (length (items b)) < cap →
  ∃ b' h' f, run (OpAdd <$> adds) (b, h) = Some ((b', h'), f) ∧
             bufferSize b' = cap ∧ Z.of_nat (length (items b')) < cap ∧
             Forall (full cap) f ∧
             concat f ++ items b' = items b ++ concat (arg_items <$> adds).
Proof.
  induction adds as [|a adds IH]; intros b h Hcap Hc Hlen.
  - eexists _, _, _. split; [reflexivity|]. split_and!; try done. by rewrite app_nil_r.
  - destruct (add_full cap a b h) as (b1 & h1 & f1 & Ha & Hc1 & Hl1 & Hf1 & Hcat1); try done.
    destruct (IH b1 h1) as (b2 & h2 & f2 & Hr & Hc2 & Hl2 & Hf2 & Hcat2); try done.
    rewrite fmap_cons. cbn [run apply_op]. rewrite Ha, Hr.
    eexists _, _, _. split; [reflexivity|]. split; [done|]. split; [done|].
    split; [by apply Forall_app|].
    rewrite fmap_cons. cbn [concat].
    by rewrite concat_app, <- app_assoc, Hcat2, !app_assoc, Hcat1.
Qed.

Lemma length_concat_full cap (f : list (list A)) :
  Forall (full cap) f → Z.of_nat (length (concat f)) = cap * Z.of_nat (length f).
Proof.
  induction 1 as [|x f Hx _ IH]; [simpl; lia|].
  cbn [concat length]. rewrite length_app. unfold full in Hx. lia.
Qed.

(** X2. Additions alone fill whole batches: after adding [N] items in all to a
    fresh buffer of capacity [c >= 1], with no timer expiry in between,
    [N / c] flushes were emitted, each of exactly [c] items, and [N mod c]
    items wait in the buffer. *)
Theorem additions_flush_whole_batches (cap tmo : Z) (adds : list (AddArg A)) :
  1 ≤ cap →
  let N := Z.of_nat (length (concat (arg_items <$> adds))) in
  ∃ s f, run (OpAdd <$> adds) (fresh_buffer cap tmo) = Some (s, f) ∧
         Forall (full cap) f ∧
         Z.of_nat (length f) = N `div` cap ∧
         Z.of_nat (length (items s.1)) = N `mod` cap.
Proof.
  intros Hcap N.
  destruct (run_adds_full cap adds (init cap tmo) no_timers)
    as (b & h & f & Hr & _ & Hl & Hf & Hcat); try done; [simpl; lia|].
  exists (b, h), f. split; [done|]. split; [done|].
  assert (N = cap * Z.of_nat (length f) + Z.of_nat (length (items b))) as HN.
  { unfold N. simpl in Hcat. rewrite <- Hcat, length_app, Nat2Z.inj_add.
    by rewrite (length_concat_full cap). }
  simpl. split.
  - apply (Z.div_unique _ _ _ (Z.of_nat (length (items b)))); [lia|done].
  - apply (Z.mod_unique _ _ (Z.of_nat (length f))); [lia|done].
Qed.

End MemoryCoverage.

Lemma additions_flush_whole_batches_witness :
  1 ≤ 3 ∧
  ∃ s f, Memory.run (Memory.OpAdd <$> [Memory.Many [1; 2; 3; 4]%nat; Memory.Single 5%nat;
                                        Memory.Many [6; 7; 8]%nat] : list (Memory.Op nat))
           (Memory.fresh_buffer 3 500) = Some (s, f) ∧
         Forall (Batches.full 3) f ∧
         Z.of_nat (length f) = 2 ∧
         Z.of_nat (length (Memory.items s.1)) = 2.
Proof.
  split; [lia|].
  apply (additions_flush_whole_batches 3 500
           [Memory.Many [1; 2; 3; 4]%nat; Memory.Single 5%nat; Memory.Many [6; 7; 8]%nat]).
  lia.
Defined.

Section MemoryCoverage2.
Context {A : Type}.
Import Memory MemorySpec.
Implicit Types (b : Memory.t A) (h : Timers).

Lemma truthyZ_true x : truthyZ x = true ↔ ∃ c, x = Some c ∧ c ≠ 0.
Proof.
  destruct x as [c|]; simpl.
  - rewrite negb_true_iff, Z.eqb_neq. split; [by exists c|by intros (? & [= <-] & ?)].
  - split; [done|by intros (? & ? & _)].
Qed.

(** X1. The constructor of the buffer throws exactly when [bufferSize] or
    [bufferTimeout] is missing or 0, naming [bufferSize] first; otherwise
    it returns an empty buffer with no timer. *)
Theorem buffer_constructor_requires_size_and_timeout (o : Memory.Options) :
  (@constructor A (Some o) = Thrown "Missing required option [bufferSize]."
     ↔ truthyZ (o_bufferSize o) = false) ∧
  (@constructor A (Some o) = Thrown "Missing required option [bufferTimeout]."
     ↔ truthyZ (o_bufferSize o) = true ∧ truthyZ (o_bufferTimeout o) = false) ∧
  (∀ b, constructor (Some o) = Returned b
     ↔ ∃ c t, o_bufferSize o = Some c ∧ c ≠ 0 ∧ o_bufferTimeout o = Some t ∧ t ≠ 0 ∧
              b = mk c t [] None).
Proof.
  unfold constructor, _validate, init. destruct o as [oc ot].
  cbn [o_bufferSize o_bufferTimeout].
  destruct (truthyZ oc) eqn:Tc; cbn [negb].
  - destruct (truthyZ ot) eqn:Tt; cbn [negb].
    + apply truthyZ_true in Tc as (c & -> & Hc). apply truthyZ_true in Tt as (t & -> & Ht).
      cbn [default]. split; [done|]. split; [split; [done|by intros [_ ?]]|].
      intros b. split.
      * intros [= <-]. by exists c, t.
      * by intros (? & ? & [= <-] & _ & [= <-] & _ & ->).
    + split; [done|]. split; [done|]. intros b. split; [done|].
      intros (c & t & _ & _ & -> & Ht & _). exfalso. apply Ht.
      simpl in Tt. by apply negb_false_iff, Z.eqb_eq in Tt.
  - split; [done|]. split; [split; [done|by intros [? _]]|]. intros b. split; [done|].
    intros (c & t & -> & Hc & _). exfalso. apply Hc.
    simpl in Tc. by apply negb_false_iff, Z.eqb_eq in Tc.
Qed.

Lemma buffer_constructor_shape (c t : Z) :
  c ≠ 0 → t ≠ 0 → @constructor A (Some (mkOptions (Some c) (Some t))) = Returned (init c t).
Proof.
  intros Hc Ht. unfold constructor, _validate. simpl.
  apply Z.eqb_neq in Hc, Ht. by rewrite Hc, Ht.
Qed.

(** X3. When the buffer's timer expires, one flush carries everything the
    buffer holds and leaves it empty with no timer; the expiry of any
    other timer (one a flush has cancelled) changes nothing. *)
Theorem timer_expiry_empties_buffer (cap tmo : Z) (ops : list (Op A)) (other : nat) :
  1 ≤ cap →
  ∃ s f, run ops (fresh_buffer cap tmo) = Some (s, f) ∧
         (∀ id, timerId s.1 = Some id →
            apply_op (OpTimeout id) s =
              Some ((mk cap tmo [] None, mkTimers [] (next_timer s.2)), [items s.1])) ∧
         (timerId s.1 ≠ Some other → apply_op (OpTimeout other) s = Some (s, [])).
Proof.
  intros Hcap.
  destruct (run_spec cap tmo Hcap false ops (fresh_buffer cap tmo))
    as ([b [p n]] & f & Hrun & (Hc & Ht & _ & Hok & _) & _); [by apply fresh_buffer_inv|done|].
  exists (b, mkTimers p n), f. split; [done|].
  unfold timer_ok in Hok. simpl in Hc, Ht, Hok. split.
  - intros id Hid. simpl in Hid. rewrite Hid in Hok. subst p.
    cbn [apply_op snd fst]. unfold expire, clearTimeout, timer_is. simpl.
    rewrite Nat.eqb_refl. simpl.
    unfold _flush, _stopTimer. rewrite Hid. unfold clearTimeout. simpl.
    unfold set_items, set_timerId. simpl. by rewrite Hc, Ht.
  - simpl. intros Hne. cbn [apply_op snd]. unfold expire, timer_is. simpl.
    destruct (timerId b) as [id|]; subst p; simpl; [|done].
    destruct (Nat.eqb id other) eqn:E; [|done].
    apply Nat.eqb_eq in E. by subst.
Qed.

(** X4. At most one timer is pending for a buffer, and an addition that
    leaves room in a buffer whose timer runs only appends the items: the
    timer and its deadline stay as they are. *)
Theorem running_timer_is_kept (cap tmo : Z) (ops : list (Op A)) (a : AddArg A) :
  1 ≤ cap →
  ∃ s f, run ops (fresh_buffer cap tmo) = Some (s, f) ∧
         (length (pending s.2) ≤ 1)%nat ∧
         (∀ id, timerId s.1 = Some id →
            Z.of_nat (length (items s.1)) + Z.of_nat (length (arg_items a)) < cap →
            add a s = Some ((set_items (items s.1 ++ arg_items a) s.1, s.2), [])).
Proof.
  intros Hcap.
  destruct (run_spec cap tmo Hcap false ops (fresh_buffer cap tmo))
    as ([b h] & f & Hrun & (Hc & Ht & _ & Hok & _) & _); [by apply fresh_buffer_inv|done|].
  exists (b, h), f. split; [done|]. unfold timer_ok in Hok. simpl in Hc, Hok. split.
  - simpl. destruct (timerId b); rewrite Hok; simpl; lia.
  - simpl. intros id Hid Hroom. destruct a as [x|xs]; unfold add;
      cbn [arg_items length Nat.add add_fuel items bufferSize set_items] in *; rewrite Hc.
    + destruct (Z.of_nat (length (items b ++ [x])) =? cap) eqn:E.
      { apply Z.eqb_eq in E. rewrite length_app in E. simpl in E, Hroom. lia. }
      unfold _startTimer. cbn [timerId set_items]. by rewrite Hid.
    + destruct (cap <? _) eqn:E1; [apply Z.ltb_lt in E1; lia|].
      destruct (_ =? cap) eqn:E2; [apply Z.eqb_eq in E2; lia|].
      unfold _startTimer. cbn [timerId set_items]. by rewrite Hid.
Qed.

Lemma add_many_diverges fuel : ∀ xs b h,
  bufferSize b < 0 → add_fuel fuel (Many xs) (b, h) = None.
Proof.
  induction fuel as [|fuel IH]; intros xs b h Hneg; [done|].
  cbn [add_fuel].
  destruct (bufferSize b <? _) eqn:E; [|apply Z.ltb_ge in E; lia].
  destruct (flush_shape (set_items (items b ++ slice xs 0
              (bufferSize b - Z.of_nat (length (items b)))) b) h)
    as (b1 & h1 & -> & Hc1 & _).
  rewrite IH; [done|]. by rewrite Hc1.
Qed.

(** X5. A negative [bufferSize] passes the validation of the constructor, and
    on such a buffer [add] of an array never returns: each call flushes
    and calls [add] again, whatever the array holds. *)
Theorem negative_capacity_never_returns (c t : Z) (xs : list A) (h : Timers) (fuel : nat) :
  c < 0 → t ≠ 0 →
  ∃ b, constructor (Some (mkOptions (Some c) (Some t))) = Returned b ∧
       add_fuel fuel (Many xs) (b, h) = None.
Proof.
  intros Hc Ht. exists (init c t). split.
  - apply buffer_constructor_shape; [lia|done].
  - by apply add_many_diverges.
Qed.
End MemoryCoverage2.

Lemma timer_expiry_empties_buffer_witness :
  1 ≤ 10 ∧
  ∃ s f, Memory.run [Memory.OpAdd (Memory.Single 7%nat)] (Memory.fresh_buffer 10 1000)
         = Some (s, f) ∧
         Memory.apply_op (Memory.OpTimeout 1) s =
           Some ((Memory.mk 10 1000 [] None, mkTimers [] 2), [[7%nat]]).
Proof.
  split; [lia|].
  destruct (timer_expiry_empties_buffer 10 1000 [Memory.OpAdd (Memory.Single 7%nat)] 0)
    as (s & f & Hrun & Hfire & _); [lia|].
  exists s, f. split; [exact Hrun|].
  assert (s = (Memory.mk 10 1000 [7%nat] (Some 1%nat), mkTimers [(1%nat, FlushBound, 1000)] 2))
    as -> by (injection Hrun as <- _; reflexivity).
  exact (Hfire 1%nat eq_refl).
Defined.


Lemma running_timer_is_kept_witness :
  1 ≤ 10 ∧
  ∃ s f, Memory.run [Memory.OpAdd (Memory.Single 7%nat)] (Memory.fresh_buffer 10 1000)
         = Some (s, f) ∧
         Memory.add (Memory.Many [8; 9]%nat) s =
           Some ((Memory.mk 10 1000 [7; 8; 9]%nat (Some 1%nat),
                  mkTimers [(1%nat, FlushBound, 1000)] 2), []).
Proof.
  split; [lia|].
  destruct (running_timer_is_kept 10 1000 [Memory.OpAdd (Memory.Single 7%nat)]
              (Memory.Many [8; 9]%nat))
    as (s & f & Hrun & _ & Hadd); [lia|].
  exists s, f. split; [exact Hrun|].
  assert (s = (Memory.mk 10 1000 [7%nat] (Some 1%nat), mkTimers [(1%nat, FlushBound, 1000)] 2))
    as -> by (injection Hrun as <- _; reflexivity).
  apply (Hadd 1%nat eq_refl). simpl. lia.
Defined.

Lemma negative_capacity_never_returns_witness :
  -5 < 0 ∧ 1000 ≠ 0 ∧
  ∃ b, Memory.constructor (Some (Memory.mkOptions (Some (-5)) (Some 1000))) = Returned b ∧
       Memory.add_fuel 100 (Memory.Many [1%nat]) (b, no_timers) = None.
Proof.
  assert (-5 < 0) as H1 by lia. assert (1000 ≠ 0) as H2 by lia.
  split; [exact H1|]. split; [exact H2|].
  exact (negative_capacity_never_returns (-5) 1000 [1%nat] no_timers 100 H1 H2).
Defined.

(** * Further properties of the receiver *)

Section ReceiverCoverage.
Import Receiver ReceiverSpec Scenario.

Lemma orZ_in_range x : js_lt x (Some 1) || js_gt x (Some 10) = false → 1 ≤ orZ x 1 ≤ 10.
Proof.
  unfold orZ. destruct x as [n|]; simpl; [|lia].
  intros H. apply orb_false_iff in H as [H1 H2].
  apply Z.ltb_ge in H1, H2. destruct (n =? 0) eqn:E; simpl; lia.
Qed.

(** X6. A receiver the constructor returns is stopped, has a queue URL, polls
    for between 1 and 10 messages (1 when [batchSize] is omitted), waits a
    non-zero time after an authentication failure, and owns a buffer
    exactly when [bufferSize] is set and not 0: an empty one of that
    capacity with a non-zero timeout (10000 by default). *)
Theorem constructed_receiver (o : Options) (r : Receiver) :
  constructor (Some o) = Returned r →
  stopped r = true ∧
  queueUrl r ≠ "" ∧
  batchSize r = orZ (o_batchSize o) 1 ∧ 1 ≤ batchSize r ≤ 10 ∧
  authenticationErrorTimeout r ≠ 0 ∧
  bufferSize r = o_bufferSize o ∧
  bufferTimeout r ≠ 0 ∧
  buffer r = if truthyZ (o_bufferSize o)
             then Some (Memory.init (default 0 (o_bufferSize o)) (orZ (o_bufferTimeout o) 10000))
             else None.
Proof.
  unfold constructor, _validate.
  destruct (truthyS (o_queueUrl o)) eqn:Q; cbn [negb]; [|done].
  destruct (o_messageReceiver o); cbn [negb]; [|done].
  destruct (js_lt (o_batchSize o) (Some 1) || js_gt (o_batchSize o) (Some 10)) eqn:B; [done|].
  destruct (js_le (o_bufferSize o) (o_batchSize o)); [done|].
  pose proof (orZ_in_range _ B) as Hb.
  assert (∀ x d, d ≠ 0 → orZ x d ≠ 0) as Hnz.
  { intros x d Hd. pose proof (orZ_truthy x d Hd) as H. simpl in H.
    by apply negb_true_iff, Z.eqb_neq in H. }
  assert (default "" (o_queueUrl o) ≠ "") as Hq.
  { destruct (o_queueUrl o) as [q|]; [|done]. simpl in *.
    by apply negb_true_iff, String.eqb_neq in Q. }
  destruct (truthyZ (o_bufferSize o)) eqn:T.
  - unfold Memory.constructor, Memory._validate.
    cbn [Memory.o_bufferSize Memory.o_bufferTimeout bufferSize bufferTimeout].
    rewrite T, orZ_truthy by done. cbn [negb default].
    intros [= <-]. cbn. split_and!; try done; try lia; by apply Hnz.
  - intros [= <-]. cbn. split_and!; try done; try lia; by apply Hnz.
Qed.

Lemma constructed_receiver_witness :
  constructor (Some buffered_options) = Returned buffered_receiver ∧
  stopped buffered_receiver = true ∧
  1 ≤ batchSize buffered_receiver ≤ 10 ∧
  buffer buffered_receiver = Some (Memory.init 20 1000).
Proof.
  assert (constructor (Some buffered_options) = Returned buffered_receiver) as H by reflexivity.
  split; [exact H|].
  destruct (constructed_receiver buffered_options buffered_receiver H)
    as (Hs & _ & _ & Hb & _ & _ & _ & Hbuf).
  split; [exact Hs|]. split; [exact Hb|exact Hbuf].
Defined.

(** X7. [start()] twice is [start()] once and [stop()] twice is [stop()] once;
    on a running receiver [start()] does nothing, and [stop()] followed by
    [start()] issues a new receive request while the earlier one is still
    in flight. *)
Theorem start_and_stop_compose (w : World) :
  start (start w) = start w ∧
  stop (stop w) = stop w ∧
  stopped (me (start w)) = false ∧
  (stopped (me w) = false →
     start w = w ∧
     since w (start (stop w)) = [ReceiveMessage (receive_params (me w))] ∧
     inflight (start (stop w)) = S (inflight w)).
Proof.
  split; [|split; [done|split]].
  - unfold start. destruct (stopped (me w)) eqn:Hs; [|by rewrite Hs].
    by rewrite (proj1 (poll_frame _ _)).
  - unfold start. destruct (stopped (me w)) eqn:Hs; [|done].
    by rewrite (proj1 (poll_frame _ _)).
  - intros Hs. split; [unfold start; by rewrite Hs|].
    split; [by apply since_app|done].
Qed.

Lemma start_and_stop_compose_witness :
  let w := start (boot plain_receiver ∅) in
  stopped (me w) = false ∧
  start w = w ∧
  inflight (start (stop w)) = 2%nat.
Proof.
  intros w. assert (stopped (me w) = false) as Hs by reflexivity.
  split; [exact Hs|].
  destruct (start_and_stop_compose w) as (_ & _ & _ & H).
  destruct (H Hs) as (H1 & _ & H3). split; [exact H1|exact H3].
Defined.



(** X9. Without a buffer, a receive with messages emits ['message:received'],
    calls [messageReceiver] with the same messages and issues no receive
    request: the next poll waits for the acknowledgment. *)
Theorem unbuffered_receive_waits_for_acknowledgment
    (w : World) (n : nat) (m : Message) (ms : list Message) :
  inflight w = S n → truthyZ (bufferSize (me w)) = false →
  let w' := step (ReceiveReply (Received (Some (m :: ms)))) w in
  since w w' = [Emit (EvMessageReceived (m :: ms)); CallMessageReceiver (m :: ms)] ∧
  inflight w' = n ∧
  me w' = me w ∧ timers w' = timers w ∧ acks w' = acks w.
Proof.
  intros Hn Hb w'. unfold w'. simpl. rewrite Hn.
  unfold _internalMessageProcessor. simpl. rewrite Hb.
  split; [|done]. apply since_app. simpl. by rewrite <- app_assoc.
Qed.

Lemma unbuffered_receive_waits_for_acknowledgment_witness :
  let w := start (boot plain_receiver ∅) in
  let w' := step (ReceiveReply (Received (Some [msg "1"]))) w in
  inflight w = 1%nat ∧
  truthyZ (bufferSize (me w)) = false ∧
  since w w' = [Emit (EvMessageReceived [msg "1"]); CallMessageReceiver [msg "1"]] ∧
  inflight w' = 0%nat.
Proof.
  intros w w'. split; [reflexivity|]. split; [reflexivity|].
  destruct (unbuffered_receive_waits_for_acknowledgment w 0 (msg "1") [] eq_refl eq_refl)
    as (H1 & H2 & _).
  split; [exact H1|exact H2].
Defined.

(** With a negative [bufferSize], a receive of three messages hands over
    all but the last, then empty arrays, call after call of [add], until
    the stack is full. *)
Example negative_buffer_overflows :
  let w := start (boot negative_buffer_receiver ∅) in
  let w' := step (ReceiveReply (Received (Some [msg "1"; msg "2"; msg "3"]))) w in
  constructor (Some negative_buffer_options) = Returned negative_buffer_receiver ∧
  take 3 (since w w') =
    [Emit (EvMessageReceived [msg "1"; msg "2"; msg "3"]);
     CallMessageReceiver [msg "1"; msg "2"]; CallMessageReceiver []] ∧
  last (since w w') = Some (Throw "RangeError: Maximum call stack size exceeded") ∧
  length (since w w') = (max_call_depth + 2)%nat ∧
  count is_receive (since w w') = 0%nat.
Proof. vm_compute. by repeat split. Qed.
End ReceiverCoverage.

Section AcknowledgmentCoverage.
Import Receiver ReceiverSpec Scenario.

Lemma new_ack_free w : acks w !! new_ack w = None.
Proof. unfold new_ack. apply (not_elem_of_dom (acks w)). apply is_fresh. Qed.

(** What [deleteMessage] does with one message, given as it is or as the
    only element of an array. *)
Lemma deleteMessage_one w a m :
  a = ArgMessage m ∨ (∃ l, a = ArgArray l ∧ heap w !! l = Some [m]) →
  deleteMessage a w = _deleteMessageOne m a w.
Proof. intros [-> | (l & -> & Hl)]; [done|]. unfold deleteMessage. by rewrite Hl. Qed.

Lemma on_delete_reply_spec w id orig err :
  acks w !! id = Some (AckOne orig) →
  let w' := on_delete_reply id err w in
  trace w' = trace w ++
    match err with
    | None => Emit (EvMessageProcessed orig) :: polled (me w)
    | Some e =>
        if heard w
        then Emit (EvError (mkError SQSError
                              ("SQS delete message failed with error: " +:+ message e)))
               :: polled (me w)
        else [Throw ("SQSError: SQS delete message failed with error: " +:+ message e)]
    end ∧
  inflight w' =
    match err with
    | None => polled_inflight (me w) (inflight w)
    | Some _ => if heard w then polled_inflight (me w) (inflight w) else inflight w
    end ∧
  acks w' = delete id (acks w) ∧ heap w' = heap w.
Proof.
  intros Ha. unfold on_delete_reply. rewrite Ha. cbv zeta.
  set (w0 := set_acks (delete id (acks w)) w).
  destruct err as [e|].
  - destruct (delete_callback_spec orig
                (Some (mkError SQSError
                         ("SQS delete message failed with error: " +:+ message e))) w0)
      as (Ht & Hi & Hhp & Ha' & _).
    rewrite Ht, Hi, Ha', Hhp. unfold report, goes_on, uncaught.
    cbn [error_constructor error_message class_name]. unfold w0. cbn [heard me set_acks].
    by destruct (heard w).
  - destruct (delete_callback_spec orig None w0) as (Ht & Hi & Hhp & Ha' & _).
    by rewrite Ht, Hi, Ha', Hhp.
Qed.

(** X11. Acknowledging one message (as it is, or as a one-element array) with
    a receipt handle issues one delete call with that handle and nothing
    else. When the call succeeds, ['message:processed'] carries what the
    application passed and a poll follows; when it fails, with a listener
    on ['error'] the event carries the failure and a poll follows, and
    without one the error is thrown and no poll follows. No
    acknowledgment stays pending. *)
Theorem single_message_acknowledgment
    (w : World) (a : AckArg) (m : Message) (err : option SdkError) :
  a = ArgMessage m ∨ (∃ l, a = ArgArray l ∧ heap w !! l = Some [m]) →
  ReceiptHandle m ≠ "" →
  let w1 := deleteMessage a w in
  let w2 := step (DeleteReply (new_ack w) err) w1 in
  since w w1 = [DeleteMessage (new_ack w) (queueUrl (me w)) (ReceiptHandle m)] ∧
  inflight w1 = inflight w ∧
  since w1 w2 =
    match err with
    | None => Emit (EvMessageProcessed a) :: polled (me w)
    | Some e =>
        if heard w
        then Emit (EvError (mkError SQSError
                              ("SQS delete message failed with error: " +:+ message e)))
               :: polled (me w)
        else [Throw ("SQSError: SQS delete message failed with error: " +:+ message e)]
    end ∧
  inflight w2 =
    match err with
    | None => polled_inflight (me w) (inflight w)
    | Some _ => if heard w then polled_inflight (me w) (inflight w) else inflight w
    end ∧
  acks w2 = acks w ∧ heap w2 = heap w.
Proof.
  intros Ha Hh w1 w2.
  assert (w1 = effect (DeleteMessage (new_ack w) (queueUrl (me w)) (ReceiptHandle m))
                 (set_acks (<[new_ack w := AckOne a]> (acks w)) w)) as Hw1.
  { unfold w1. rewrite (deleteMessage_one _ _ _ Ha). unfold _deleteMessageOne.
    apply String.eqb_neq in Hh. by rewrite Hh. }
  split; [rewrite Hw1; by apply since_app|].
  split; [by rewrite Hw1|].
  destruct (on_delete_reply_spec w1 (new_ack w) a err) as (Ht & Hi & Hacks & Hhp).
  { rewrite Hw1. cbn. by rewrite lookup_insert_eq. }
  change (on_delete_reply (new_ack w) err w1) with w2 in Ht, Hi, Hacks, Hhp.
  assert (me w1 = me w ∧ heap w1 = heap w ∧ inflight w1 = inflight w ∧ heard w1 = heard w ∧
          acks w1 = <[new_ack w := AckOne a]> (acks w)) as (Hme & Hheap & Hin & Hhe & Hins)
    by (by rewrite Hw1).
  rewrite (since_app _ _ _ Ht), Hi, Hacks, Hhp, Hme, Hin, Hhe, Hins, Hheap.
  split; [done|]. split; [done|]. split; [|done]. apply delete_insert_id, new_ack_free.
Qed.

Lemma single_message_acknowledgment_witness :
  let w := start (boot plain_receiver {[ 3%nat := [msg "1"] ]}) in
  let w1 := deleteMessage (ArgArray 3) w in
  let ok := step (DeleteReply (new_ack w) None) w1 in
  let failed := step (DeleteReply (new_ack w) (Some (mkSdkError CodeUndefined "Denied"))) w1 in
  heap w !! 3%nat = Some [msg "1"] ∧
  ReceiptHandle (msg "1") ≠ "" ∧
  since w w1 = [DeleteMessage 0 "https://sqs/queue" "handle-1"] ∧
  since w1 ok =
    [Emit (EvMessageProcessed (ArgArray 3));
     ReceiveMessage
       (mkParams (Some "https://sqs/queue") (Some []) (Some []) (Some 1) None None)] ∧
  inflight ok = 2%nat ∧
  since w1 failed =
    [Emit (EvError (mkError SQSError "SQS delete message failed with error: Denied"));
     ReceiveMessage
       (mkParams (Some "https://sqs/queue") (Some []) (Some []) (Some 1) None None)] ∧
  inflight failed = 2%nat.
Proof.
  intros w w1 ok failed.
  assert (heap w !! 3%nat = Some [msg "1"]) as Hl by reflexivity.
  assert (ReceiptHandle (msg "1") ≠ "") as Hh by discriminate.
  split; [exact Hl|]. split; [exact Hh|].
  destruct (single_message_acknowledgment w (ArgArray 3) (msg "1") None
              (or_intror (ex_intro _ 3%nat (conj eq_refl Hl))) Hh) as (H1 & _ & H2 & H3 & _).
  destruct (single_message_acknowledgment w (ArgArray 3) (msg "1")
              (Some (mkSdkError CodeUndefined "Denied"))
              (or_intror (ex_intro _ 3%nat (conj eq_refl Hl))) Hh) as (_ & _ & H4 & H5 & _).
  split; [exact H1|]. split; [exact H2|]. split; [exact H3|]. split; [exact H4|exact H5].
Defined.

(** The failed delete of the witness when the application has no listener
    on ['error']: the error is thrown and nothing polls. *)
Example failed_delete_without_error_listener :
  let w := steps [Listen false; Start; ReceiveReply (Received (Some [msg "1"]))]
             (boot plain_receiver ∅) in
  let w1 := deleteMessage (ArgMessage (msg "1")) w in
  let w2 := step (DeleteReply (new_ack w) (Some (mkSdkError CodeUndefined "Denied"))) w1 in
  since w1 w2 = [Throw "SQSError: SQS delete message failed with error: Denied"] ∧
  inflight w2 = 0%nat ∧ pending (timers w2) = [] ∧ acks w2 = ∅.
Proof. repeat split; reflexivity. Qed.

(** X12. Acknowledging one message that has no receipt handle throws before any
    delete call: nothing is emitted, no poll follows and no acknowledgment
    is pending. *)
Theorem acknowledgment_without_receipt_handle (w : World) (a : AckArg) (m : Message) :
  a = ArgMessage m ∨ (∃ l, a = ArgArray l ∧ heap w !! l = Some [m]) →
  ReceiptHandle m = "" →
  let w' := deleteMessage a w in
  since w w' = [Throw "TypeError: Cannot read property 'ReceiptHandle' of undefined"] ∧
  acks w' = acks w ∧ inflight w' = inflight w ∧ timers w' = timers w.
Proof.
  intros Ha Hh w'. unfold w'. rewrite (deleteMessage_one _ _ _ Ha).
  unfold _deleteMessageOne. rewrite Hh. split; [by apply since_app|done].
Qed.

Lemma acknowledgment_without_receipt_handle_witness :
  let w := start (boot plain_receiver ∅) in
  let m := mkMessage "1" "" "body" in
  ReceiptHandle m = "" ∧
  since w (deleteMessage (ArgMessage m) w) =
    [Throw "TypeError: Cannot read property 'ReceiptHandle' of undefined"].
Proof.
  intros w m. split; [reflexivity|].
  exact (proj1 (acknowledgment_without_receipt_handle w (ArgMessage m) m
                  (or_introl eq_refl) eq_refl)).
Defined.

(** X13. Calling the acknowledgment handle with nothing emits one
    ['processing:error'] event and then polls: a running receiver issues
    one receive request with its own parameters, which is then in flight,
    and a stopped one emits ['stopped']. No delete call is issued, nothing
    is emitted on ['error'], and no acknowledgment is pending. *)
Theorem acknowledgment_without_message (w : World) :
  let w' := deleteMessage ArgNone w in
  since w w' =
    Emit (EvProcessingError (mkError ConsumerDeleteError "No message supplied to be deleted"))
      :: (if stopped (me w) then [Emit EvStopped]
          else [ReceiveMessage
                  (mkParams (Some (queueUrl (me w))) (Some (attributeNames (me w)))
                     (Some (messageAttributeNames (me w))) (Some (batchSize (me w)))
                     (waitTimeSeconds (me w)) (visibilityTimeout (me w)))]) ∧
  inflight w' = (if stopped (me w) then inflight w else S (inflight w)) ∧
  count is_delete (since w w') = 0%nat ∧
  count is_error (since w w') = 0%nat ∧
  count is_receive (since w w') = (if stopped (me w) then 0 else 1)%nat ∧
  acks w' = acks w ∧ timers w' = timers w ∧ me w' = me w.
Proof.
  intros w'.
  destruct (processing_error_then_poll
              (mkError ConsumerDeleteError "No message supplied to be deleted") w
              eq_refl eq_refl) as (Hs & Hi & Ha & Hme & Ht & _).
  change (and_then _ _) with w' in Hs, Hi, Ha, Hme, Ht.
  rewrite Hs, Hi, Ha, Hme, Ht.
  destruct (count_polled (me w)) as (Hd & _ & _ & He & Hr).
  change (?x :: polled (me w)) with ([x] ++ polled (me w)).
  rewrite !count_app, Hd, He, Hr. unfold polled, polled_inflight, receive_params.
  by destruct (stopped (me w)).
Qed.

Lemma acknowledgment_without_message_witness :
  let running := start (boot plain_receiver ∅) in
  let halted := stop running in
  since running (deleteMessage ArgNone running) =
    [Emit (EvProcessingError
             (mkError ConsumerDeleteError "No message supplied to be deleted"));
     ReceiveMessage
       (mkParams (Some "https://sqs/queue") (Some []) (Some []) (Some 1) None None)] ∧
  inflight (deleteMessage ArgNone running) = 2%nat ∧
  since halted (deleteMessage ArgNone halted) =
    [Emit (EvProcessingError
             (mkError ConsumerDeleteError "No message supplied to be deleted"));
     Emit EvStopped] ∧
  inflight (deleteMessage ArgNone halted) = 1%nat.
Proof.
  intros running halted.
  destruct (acknowledgment_without_message running) as (H1 & H2 & _).
  destruct (acknowledgment_without_message halted) as (H3 & H4 & _).
  split; [exact H1|]. split; [exact H2|]. split; [exact H3|exact H4].
Defined.

(** X14. Acknowledging an empty array issues no delete call and emits nothing
    inside the call: the acknowledgment waits for the microtask of
    [Promise.all] over no promise. When that runs, ['message:processed']
    is emitted with the empty array and the receiver polls as it is
    then: if [stop()] was called in between, the poll emits ['stopped']
    and issues no receive request. *)
Theorem empty_array_acknowledgment (w : World) (l : nat) (halt : bool) :
  heap w !! l = Some [] →
  let w1 := deleteMessage (ArgArray l) w in
  let w2 := if halt then stop w1 else w1 in
  let w3 := step (Microtask (new_ack w)) w2 in
  since w w1 = [] ∧
  inflight w1 = inflight w ∧
  acks w1 = <[new_ack w := AckBatch (ArgArray l) 0 false]> (acks w) ∧
  since w2 w3 =
    Emit (EvMessageProcessed (ArgArray l))
      :: (if halt || stopped (me w) then [Emit EvStopped]
          else [ReceiveMessage (receive_params (me w))]) ∧
  inflight w3 = (if halt || stopped (me w) then inflight w else S (inflight w)) ∧
  count is_delete (since w w3) = 0%nat.
Proof.
  intros Hl w1 w2 w3.
  set (w0 := set_heap (<[fresh (dom (heap w)) := []]> (heap w)) w).
  assert (w1 = set_acks (<[new_ack w := AckBatch (ArgArray l) 0 false]> (acks w)) w0) as Hw1.
  { unfold w1, deleteMessage. rewrite Hl. unfold _deleteMessageBatch.
    cbn [heap set_heap]. by rewrite lookup_insert_eq. }
  assert (trace w2 = trace w ∧ inflight w2 = inflight w ∧
          stopped (me w2) = halt || stopped (me w) ∧
          receive_params (me w2) = receive_params (me w) ∧
          acks w2 !! new_ack w = Some (AckBatch (ArgArray l) 0 false))
    as (Ht2 & Hi2 & Hs2 & Hp2 & Ha2).
  { unfold w2. rewrite Hw1. destruct halt; cbn; by rewrite lookup_insert_eq. }
  assert (trace w3 = trace w2 ++ Emit (EvMessageProcessed (ArgArray l)) :: polled (me w2) ∧
          inflight w3 = polled_inflight (me w2) (inflight w2)) as (Ht3 & Hi3).
  { unfold w3. cbn [step]. unfold on_microtask. rewrite Ha2.
    set (w2' := set_acks _ w2).
    destruct (delete_callback_spec (ArgArray l) None w2') as (Ht & Hi & _).
    by rewrite Ht, Hi. }
  split; [apply since_app; rewrite Hw1; cbn; by rewrite app_nil_r|].
  split; [by rewrite Hw1|]. split; [by rewrite Hw1|].
  assert (polled (me w2) = if halt || stopped (me w) then [Emit EvStopped]
                           else [ReceiveMessage (receive_params (me w))]) as Hp.
  { unfold polled. by rewrite Hs2, Hp2. }
  split; [rewrite (since_app _ _ _ Ht3); by rewrite Hp|].
  split; [rewrite Hi3, Hi2; unfold polled_inflight; by rewrite Hs2|].
  erewrite (since_app w w3); [|by rewrite Ht3, Ht2].
  rewrite Hp. by destruct (halt || stopped (me w)).
Qed.

Lemma empty_array_acknowledgment_witness :
  let w := start (boot plain_receiver {[ 3%nat := [] ]}) in
  let w1 := deleteMessage (ArgArray 3) w in
  heap w !! 3%nat = Some [] ∧
  since w w1 = [] ∧
  since w1 (step (Microtask 0) w1) =
    [Emit (EvMessageProcessed (ArgArray 3));
     ReceiveMessage
       (mkParams (Some "https://sqs/queue") (Some []) (Some []) (Some 1) None None)] ∧
  since (stop w1) (step (Microtask 0) (stop w1)) =
    [Emit (EvMessageProcessed (ArgArray 3)); Emit EvStopped].
Proof.
  intros w w1. assert (heap w !! 3%nat = Some []) as Hl by reflexivity.
  split; [exact Hl|].
  destruct (empty_array_acknowledgment w 3 false Hl) as (H1 & _ & _ & H2 & _).
  destruct (empty_array_acknowledgment w 3 true Hl) as (_ & _ & _ & H3 & _).
  split; [exact H1|]. split; [exact H2|exact H3].
Defined.

(** X15. While chunks of an acknowledgment are still unanswered, nothing is
    reported as long as every reply is a success, and the first reply that
    fails (an error, or a non-empty [Failed] list) is reported at once:
    with a listener on ['error'], by one ['error'] event and a poll;
    without one, the error is thrown and no poll follows. The replies
    after it add nothing. *)
Theorem batch_failure_is_reported_at_once
    (w : World) (id : nat) (orig : AckArg) (n : nat) (rs : list BatchResult) :
  acks w !! id = Some (AckBatch orig n false) → (length rs < n)%nat →
  let w' := steps (BatchReply id <$> rs) w in
  since w w' =
    match List.find chunk_failed rs with
    | Some r =>
        if heard w
        then Emit (EvError (mkError SQSError (failure_text r))) :: polled (me w)
        else [Throw ("SQSError: " +:+ failure_text r)]
    | None => []
    end ∧
  inflight w' =
    match List.find chunk_failed rs with
    | Some r => if heard w then polled_inflight (me w) (inflight w) else inflight w
    | None => inflight w
    end.
Proof.
  revert w n. induction rs as [|r rs IH]; intros w n Ha Hn.
  - split; [|done]. apply since_app. by rewrite app_nil_r.
  - destruct n as [|n]; [simpl in Hn; lia|].
    cbv zeta. rewrite fmap_cons, steps_cons. cbn [step List.find]. unfold on_batch_reply.
    rewrite Ha, batch_rejection_failed. destruct (chunk_failed r) eqn:Hr; cbn match.
    + set (w1 := set_acks _ w).
      destruct (rejected_callback orig w1 r) as (Ht & Hi & _ & Hacks).
      edestruct (settled_replies id rs
                   (delete_callback orig (Some (mkError SQSError (failure_text r))) w1))
        as (Hs & _ & Hin).
      { rewrite Hacks. unfold w1. simpl. by rewrite lookup_insert_eq. }
      rewrite Hin, Hi. split; [|done]. apply since_app. by rewrite Hs, Ht.
    + rewrite orb_false_l. simpl in Hn.
      destruct n as [|n]; [lia|]. cbn [Nat.eqb].
      set (w1 := set_acks _ w).
      apply (IH w1 (S n)); [|lia]. unfold w1. simpl. by rewrite lookup_insert_eq.
Qed.

Lemma batch_failure_is_reported_at_once_witness :
  let w := deleteMessage (ArgArray 7) holding_twelve in
  let failed := BatchFailed (mkSdkError CodeUndefined "Throttled") in
  acks w !! 0%nat = Some (AckBatch (ArgArray 7) 2 false) ∧
  (1 < 2)%nat ∧
  since w (steps (BatchReply 0 <$> [BatchData []]) w) = [] ∧
  since w (steps (BatchReply 0 <$> [failed]) w) =
    [Emit (EvError (mkError SQSError "SQS delete message batch failed with error: Throttled"));
     ReceiveMessage
       (mkParams (Some "https://sqs/queue") (Some []) (Some []) (Some 1) None None)].
Proof.
  intros w failed.
  assert (acks w !! 0%nat = Some (AckBatch (ArgArray 7) 2 false)) as Ha by reflexivity.
  assert (1 < 2)%nat as Hn by lia.
  split; [exact Ha|]. split; [exact Hn|]. split.
  - exact (proj1 (batch_failure_is_reported_at_once w 0 (ArgArray 7) 2 [BatchData []] Ha Hn)).
  - exact (proj1 (batch_failure_is_reported_at_once w 0 (ArgArray 7) 2 [failed] Ha Hn)).
Defined.

(** X16. When the buffer's timer expires, the receiver calls [messageReceiver]
    once with everything the buffer holds; the buffer is left empty with
    no timer, and no receive request is issued. *)
Theorem buffer_timer_hands_over
    (w : World) (id : nat) (h : Timers) (b : Memory.t Message) :
  expire id (timers w) = Some (FlushBound, h) → buffer (me w) = Some b →
  let w' := step (TimerFires id) w in
  since w w' = [CallMessageReceiver (Memory.items b)] ∧
  (∃ b', buffer (me w') = Some b' ∧ Memory.items b' = [] ∧ Memory.timerId b' = None ∧
         Memory.bufferSize b' = Memory.bufferSize b) ∧
  inflight w' = inflight w ∧ acks w' = acks w.
Proof.
  intros He Hb w'. unfold w'. cbn [step]. unfold on_timer. rewrite He, Hb.
  destruct (flush_shape b h) as (b' & h' & -> & Hc & _ & Hi & Ht).
  cbn. split; [by apply since_app|]. split; [|done]. by exists b'.
Qed.

Lemma buffer_timer_hands_over_witness :
  let w := step (ReceiveReply (Received (Some [msg "1"; msg "2"])))
             (start (boot buffered_receiver ∅)) in
  expire 1 (timers w) = Some (FlushBound, mkTimers [] 2) ∧
  buffer (me w) = Some (Memory.mk 20 1000 [msg "1"; msg "2"] (Some 1%nat)) ∧
  since w (step (TimerFires 1) w) = [CallMessageReceiver [msg "1"; msg "2"]].
Proof.
  intros w.
  assert (expire 1 (timers w) = Some (FlushBound, mkTimers [] 2)) as He by reflexivity.
  assert (buffer (me w) = Some (Memory.mk 20 1000 [msg "1"; msg "2"] (Some 1%nat))) as Hb
    by reflexivity.
  split; [exact He|]. split; [exact Hb|].
  exact (proj1 (buffer_timer_hands_over w 1 _ _ He Hb)).
Defined.
End AcknowledgmentCoverage.

(** * What the receiver keeps over a run *)

Section RunInvariants.
Import Receiver ReceiverSpec Invariants Batches.

Lemma received_app l1 l2 : received (l1 ++ l2) = received l1 ++ received l2.
Proof. unfold received. by rewrite fmap_app, concat_app. Qed.

Lemma handed_app l1 l2 : handed (l1 ++ l2) = handed l1 ++ handed l2.
Proof. unfold handed. by rewrite fmap_app, concat_app. Qed.

Lemma plain_silent c l :
  Forall plain l → received l = [] ∧ handed l = [] ∧ Forall (within c) l.
Proof.
  induction 1 as [|e l He _ (IH1 & IH2 & IH3)]; [done|].
  unfold received, handed in *. rewrite !fmap_cons. cbn [concat].
  rewrite IH1, IH2. destruct e as [[]| | | | |]; try done; by repeat split; constructor.
Qed.

Lemma evolves_plain r0 w w' l :
  trace w' = trace w ++ l → Forall (configured r0) l → Forall plain l →
  receive_params (me w') = receive_params r0 →
  buffer (me w') = buffer (me w) → bufferSize (me w') = bufferSize (me w) →
  (∀ a xs, heap w !! a = Some xs → heap w' !! a = Some xs) →
  evolves r0 w w'.
Proof.
  intros Ht Hc Hp Hr Hb Hs Hh. exists l. split_and!; try done.
  intros Hw. destruct (plain_silent (capacity (me w)) l Hp) as (-> & -> & Hin).
  unfold well_buffered, capacity, buffered in *. rewrite Hb, Hs.
  split_and!; try done. by rewrite app_nil_r.
Qed.

Lemma evolves_refl r0 w : receive_params (me w) = receive_params r0 → evolves r0 w w.
Proof. intros Hr. apply (evolves_plain r0 w w []); try done. by rewrite app_nil_r. Qed.

Lemma evolves_params r0 w w' : evolves r0 w w' → receive_params (me w') = receive_params r0.
Proof. by intros (l & _ & _ & ? & _). Qed.

Lemma evolves_trans r0 w1 w2 w3 : evolves r0 w1 w2 → evolves r0 w2 w3 → evolves r0 w1 w3.
Proof.
  intros (l1 & Ht1 & Hc1 & _ & Hh1 & Hb1) (l2 & Ht2 & Hc2 & Hr2 & Hh2 & Hb2).
  exists (l1 ++ l2). split; [by rewrite Ht2, Ht1, app_assoc|].
  split; [by apply Forall_app|]. split; [done|]. split; [by auto|].
  intros Hw. destruct (Hb1 Hw) as (Hw2 & Hcap1 & Hin1 & Hcons1).
  destruct (Hb2 Hw2) as (Hw3 & Hcap2 & Hin2 & Hcons2).
  split; [done|]. split; [by rewrite Hcap2|]. split.
  - apply Forall_app. split; [done|]. by rewrite <- Hcap1.
  - rewrite received_app, handed_app, app_assoc, Hcons1, <- !app_assoc. by rewrite Hcons2.
Qed.

Lemma evolves_effect r0 e w :
  receive_params (me w) = receive_params r0 → configured r0 e → plain e →
  evolves r0 w (effect e w).
Proof. intros. by apply (evolves_plain r0 w _ [e]); try done; repeat constructor. Qed.

Lemma evolves_poll r0 this w :
  receive_params (me w) = receive_params r0 → evolves r0 w (_poll this w).
Proof.
  intros Hr. destruct this.
  - unfold _poll, field. cbn [mjoin option_join default].
    destruct (stopped (me w)); cbn [negb].
    + by apply (evolves_effect r0 (Emit EvStopped)).
    + apply (evolves_plain r0 w _ [ReceiveMessage (receive_params (me w))]);
        try done; repeat constructor. done.
  - rewrite unbound_poll_throws. by apply evolves_effect.
Qed.

Lemma report_plain r0 e b : configured r0 (report e b) ∧ plain (report e b).
Proof. unfold report, uncaught. by destruct (error_constructor e), b. Qed.

Lemma evolves_handleErrors r0 e w :
  receive_params (me w) = receive_params r0 → evolves r0 w (after (_handleErrors e w)).
Proof.
  intros Hr. rewrite handleErrors_eq. destruct (report_plain r0 e (heard w)).
  destruct (goes_on e (heard w)); cbn [after]; by apply evolves_effect.
Qed.

Lemma evolves_and_then r0 e w k :
  receive_params (me w) = receive_params r0 →
  (∀ x, receive_params (me x) = receive_params r0 → evolves r0 x (k x)) →
  evolves r0 w (and_then (_handleErrors e w) k).
Proof.
  intros Hr Hk. rewrite handleErrors_eq. destruct (report_plain r0 e (heard w)).
  destruct (goes_on e (heard w)); cbn [and_then]; [|by apply evolves_effect].
  eapply evolves_trans; [by apply evolves_effect|]. by apply Hk.
Qed.

Lemma evolves_delete_callback r0 orig err w :
  receive_params (me w) = receive_params r0 → evolves r0 w (delete_callback orig err w).
Proof.
  intros Hr. unfold delete_callback, _messageProcessed. destruct err as [e|].
  - apply evolves_and_then; [done|]. intros x Hx. by apply evolves_poll.
  - eapply evolves_trans; [by apply (evolves_effect r0 (Emit (EvMessageProcessed orig)))|].
    by apply evolves_poll.
Qed.

(** A step that touches neither the trace, nor the heap, nor the
    configuration and the buffer of the receiver. *)
Lemma evolves_frame r0 w w' :
  receive_params (me w) = receive_params r0 →
  trace w' = trace w → heap w' = heap w →
  receive_params (me w') = receive_params (me w) →
  buffer (me w') = buffer (me w) → bufferSize (me w') = bufferSize (me w) →
  evolves r0 w w'.
Proof.
  intros Hr Ht Hh Hp Hb Hs. apply (evolves_plain r0 w w' []); try done.
  - by rewrite app_nil_r.
  - by rewrite Hp.
  - intros a xs. by rewrite Hh.
Qed.
Lemma plain_batch_calls r0 id r cs :
  Forall (configured r0) (batch_call id r <$> cs) ∧ Forall plain (batch_call id r <$> cs).
Proof. split; apply Forall_fmap, Forall_true; done. Qed.

Lemma evolves_deleteMessageOne r0 m orig w :
  receive_params (me w) = receive_params r0 → evolves r0 w (_deleteMessageOne m orig w).
Proof.
  intros Hr. unfold _deleteMessageOne. destruct (String.eqb _ _); [by apply evolves_effect|].
  eapply evolves_trans;
    [by apply (evolves_frame r0 w (set_acks (<[new_ack w:=AckOne orig]> (acks w)) w))|].
  by apply evolves_effect.
Qed.

Lemma evolves_deleteMessageBatch r0 l msgs w :
  receive_params (me w) = receive_params r0 →
  evolves r0 w
    (_deleteMessageBatch (fresh (dom (heap w))) (ArgArray l)
       (set_heap (<[fresh (dom (heap w)) := msgs]> (heap w)) w)).
Proof.
  intros Hr. set (copy := fresh (dom (heap w))).
  set (w0 := set_heap (<[copy := msgs]> (heap w)) w).
  assert (heap w0 !! copy = Some msgs) as Hc by (unfold w0; cbn; by rewrite lookup_insert_eq).
  unfold _deleteMessageBatch. rewrite Hc. change (default [] (Some msgs)) with msgs. cbv zeta.
  destruct (batch_loop_spec copy (new_ack w0) (length msgs) w0 0 msgs Hc)
    as (w1 & -> & Ht & Hhp & Hme & _); [done|].
  assert (evolves r0 w w1) as H1.
  { destruct (plain_batch_calls r0 (new_ack w0) (me w0) (chunks (length msgs) msgs)).
    eapply evolves_plain; try exact Ht; try done; try (by rewrite Hme).
    intros a xs Ha. rewrite Hhp. unfold w0. cbn [heap set_heap].
    rewrite insert_insert_eq, lookup_insert_ne; [done|].
    intros <-. apply (is_fresh (dom (heap w))). apply elem_of_dom. by eexists. }
  eapply evolves_trans; [exact H1|]. apply evolves_frame; try done.
  by apply (evolves_params _ _ _ H1).
Qed.

Lemma evolves_deleteMessage r0 a w :
  receive_params (me w) = receive_params r0 → evolves r0 w (deleteMessage a w).
Proof.
  intros Hr. destruct a as [|text|m|l].
  - apply evolves_and_then; [done|]. intros x Hx. by apply evolves_poll.
  - apply evolves_and_then; [done|]. intros x Hx. by apply evolves_poll.
  - by apply evolves_deleteMessageOne.
  - cbn [deleteMessage]. destruct (heap w !! l) as [msgs|]; [|by apply evolves_refl].
    pose proof (evolves_deleteMessageBatch r0 l msgs w Hr) as Hb.
    destruct msgs as [|m [|m' ms]]; try exact Hb. by apply evolves_deleteMessageOne.
Qed.

Lemma onFlush_fold_frame fs : ∀ w,
  let w' := foldl (fun w f => _onFlush f w) w fs in
  me w' = me w ∧ heap w' = heap w.
Proof.
  induction fs as [|f fs IH]; intros w; [done|]. simpl. by destruct (IH (_onFlush f w)) as [-> ->].
Qed.

Lemma calls_handed c fs :
  Forall (fun f => Z.of_nat (length f) ≤ c) fs →
  received (CallMessageReceiver <$> fs) = [] ∧
  handed (CallMessageReceiver <$> fs) = concat fs ∧
  Forall (within (Some c)) (CallMessageReceiver <$> fs).
Proof.
  unfold received, handed.
  induction 1 as [|f fs Hf _ (IH1 & IH2 & IH3)]; [done|].
  rewrite !fmap_cons. cbn [concat received_of handed_of]. rewrite IH1, IH2.
  split_and!; try done. by constructor.
Qed.

Lemma calls_configured r0 fs : Forall (configured r0) (CallMessageReceiver <$> fs).
Proof. by apply Forall_fmap, Forall_true. Qed.

Lemma full_fits c (fs : list (list Message)) :
  Forall (full c) fs → Forall (fun f => Z.of_nat (length f) ≤ c) fs.
Proof. intros H. eapply Forall_impl; [exact H|]. unfold full. intros. lia. Qed.

Lemma evolves_dispatch r0 msgs w :
  receive_params (me w) = receive_params r0 →
  evolves r0 w (_internalMessageProcessor msgs w).
Proof.
  intros Hr. unfold _internalMessageProcessor. cbv zeta. cbn [me emit effect].
  destruct (truthyZ (bufferSize (me w))) eqn:T.
  - unfold buffer_add. cbn [me emit effect timers].
    destruct (buffer (me w)) as [b|] eqn:B.
    + destruct (Memory.add (Memory.Many msgs) (b, timers w)) as [[[b' h'] fs]|] eqn:Hadd.
      * set (w2 := set_timers h' _).
        destruct (onFlush_fold fs w2) as [Ht _].
        destruct (onFlush_fold_frame fs w2) as [Hme Hh].
        exists (Emit (EvMessageReceived msgs) :: (CallMessageReceiver <$> fs)).
        split; [rewrite Ht; unfold w2; cbn; by rewrite <- app_assoc|].
        split; [constructor; [done|apply calls_configured]|].
        split; [by rewrite Hme|]. split; [intros a xs; by rewrite Hh|].
        assert (buffer (me w2) = Some b' ∧ bufferSize (me w2) = bufferSize (me w))
          as [Hb2 Hs2] by done.
        unfold well_buffered, capacity, buffered. rewrite B, Hme, Hb2, Hs2.
        intros (_ & Hcap & Hlen).
        destruct (add_full (Memory.bufferSize b) (Memory.Many msgs) b (timers w))
          as (b1 & h1 & f1 & Hadd1 & Hc1 & Hl1 & Hf1 & Hcat1); try done.
        rewrite Hadd in Hadd1. injection Hadd1 as <- <- <-.
        destruct (calls_handed (Memory.bufferSize b) fs (full_fits _ _ Hf1))
          as (Hrec & Hhan & Hin).
        cbn [fmap option_fmap option_map].
        rewrite T, Hc1. split; [done|]. split; [done|]. split; [by constructor|].
        change (?x :: ?l) with ([x] ++ l). rewrite received_app, handed_app, Hrec, Hhan.
        unfold received, handed. cbn. by rewrite !app_nil_r, Hcat1.
      * destruct (Memory.add_overflow _ _ _) as [[b' h'] fs].
        set (w2 := set_timers h' _).
        destruct (onFlush_fold fs w2) as [Ht _].
        destruct (onFlush_fold_frame fs w2) as [Hme Hh].
        exists (Emit (EvMessageReceived msgs) :: (CallMessageReceiver <$> fs)
                  ++ [Throw "RangeError: Maximum call stack size exceeded"]).
        cbn [trace me heap effect].
        split; [rewrite Ht; unfold w2; cbn; by rewrite <- !app_assoc|].
        split.
        { constructor; [done|]. apply Forall_app. split; [apply calls_configured|].
          by repeat constructor. }
        split; [by rewrite Hme|]. split; [intros a xs; by rewrite Hh|].
        unfold well_buffered. rewrite B. intros (_ & Hcap & Hlen).
        destruct (add_full (Memory.bufferSize b) (Memory.Many msgs) b (timers w))
          as (b1 & h1 & f1 & Hadd1 & _); try done. by rewrite Hadd in Hadd1.
    + exists [Emit (EvMessageReceived msgs);
              Throw "TypeError: Cannot read property 'add' of undefined"].
      split; [cbn; by rewrite <- app_assoc|]. split; [by repeat constructor|].
      split; [done|]. split; [done|].
      unfold well_buffered. rewrite B, T. done.
  - exists [Emit (EvMessageReceived msgs); CallMessageReceiver msgs].
    split; [cbn; by rewrite <- app_assoc|]. split; [by repeat constructor|].
    split; [done|]. split; [done|].
    unfold well_buffered, capacity, buffered. cbn [me effect emit].
    destruct (buffer (me w)) as [b|]; [intros (? & _); congruence|].
    intros _. split; [done|]. split; [done|]. split; [by repeat constructor|].
    unfold received, handed. cbn. by rewrite !app_nil_r.
Qed.

Lemma evolves_on_timer r0 id w :
  receive_params (me w) = receive_params r0 → evolves r0 w (on_timer id w).
Proof.
  intros Hr. unfold on_timer.
  destruct (expire id (timers w)) as [[[] h]|]; [| |by apply evolves_refl].
  - destruct (buffer (me w)) as [b|] eqn:B; [|by apply evolves_frame].
    destruct (flush_shape b h) as (b' & h' & -> & Hc & _ & Hi & _).
    exists [CallMessageReceiver (Memory.items b)]. cbn.
    split; [done|]. split; [by repeat constructor|]. split; [done|]. split; [done|].
    unfold well_buffered, capacity, buffered. rewrite B. cbn.
    intros (T & Hcap & Hlen). rewrite Hc, Hi. cbn.
    split; [split_and!; [done|done|lia]|]. split; [done|].
    split; [repeat constructor; cbn; lia|].
    unfold received, handed. cbn. by rewrite !app_nil_r.
  - eapply evolves_trans; [by apply (evolves_frame r0 w (set_timers h w))|].
    by apply evolves_poll.
Qed.

Lemma evolves_step r0 i w :
  receive_params (me w) = receive_params r0 → evolves r0 w (step i w).
Proof.
  intros Hr. destruct i as [| |r|a|id err|id r|id|on|id]; cbn [step].
  - unfold start. destruct (stopped (me w)); [|by apply evolves_refl].
    eapply evolves_trans;
      [by apply (evolves_frame r0 w (set_me (set_stopped false (me w)) w))|].
    by apply evolves_poll.
  - by apply evolves_frame.
  - destruct (inflight w) as [|n]; [by apply evolves_refl|].
    eapply evolves_trans; [by apply (evolves_frame r0 w (set_inflight n w))|].
    destruct r as [err|[[|m ms]|]]; cbn [_internalMessageReceiver];
      try (by apply evolves_poll).
    + destruct (is_authentication (code err)); [|by apply evolves_handleErrors].
      apply evolves_and_then; [done|]. intros x Hx. by apply evolves_frame.
    + by apply evolves_dispatch.
  - by apply evolves_deleteMessage.
  - unfold on_delete_reply. destruct (acks w !! id) as [[orig|]|]; try by apply evolves_refl.
    eapply evolves_trans; [by apply (evolves_frame r0 w (set_acks (delete id (acks w)) w))|].
    destruct err; by apply evolves_delete_callback.
  - unfold on_batch_reply.
    destruct (acks w !! id) as [[|orig [|n] settled]|]; try by apply evolves_refl.
    destruct (batch_rejection r) as [e|], settled; cbv zeta;
      try destruct (Nat.eqb n 0); try (by apply evolves_frame);
      match goal with
      | |- evolves _ _ (delete_callback _ _ ?x) =>
          apply (evolves_trans _ _ x);
            [by apply evolves_frame|by apply evolves_delete_callback]
      end.
  - by apply evolves_on_timer.
  - by apply evolves_frame.
  - unfold on_microtask.
    destruct (acks w !! id) as [[orig|orig [|n] []]|]; try by apply evolves_refl.
    match goal with
    | |- evolves _ _ (delete_callback _ _ ?x) =>
        apply (evolves_trans _ _ x);
          [by apply evolves_frame|by apply evolves_delete_callback]
    end.
Qed.

Lemma evolves_steps r0 inputs : ∀ w,
  receive_params (me w) = receive_params r0 → evolves r0 w (steps inputs w).
Proof.
  induction inputs as [|i inputs IH]; intros w Hr; [by apply evolves_refl|].
  rewrite steps_cons. eapply evolves_trans; [by apply evolves_step|].
  apply IH. eapply evolves_params. by apply evolves_step.
Qed.
End RunInvariants.

Section RunTheorems.
Import Receiver ReceiverSpec Invariants Scenario.

Lemma constructed_buffer o r :
  constructor (Some o) = Returned r →
  bufferSize r = o_bufferSize o ∧
  buffer r = if truthyZ (o_bufferSize o)
             then Some (Memory.init (default 0 (o_bufferSize o)) (orZ (o_bufferTimeout o) 10000))
             else None.
Proof.
  unfold constructor. destruct (_validate (Some o)); [|done].
  destruct (truthyZ (o_bufferSize o)) eqn:T.
  - unfold Memory.constructor, Memory._validate.
    cbn [Memory.o_bufferSize Memory.o_bufferTimeout bufferSize bufferTimeout].
    rewrite T, orZ_truthy by done. cbn [negb default]. by intros [= <-].
  - by intros [= <-].
Qed.

Lemma constructed_well_buffered o r :
  constructor (Some o) = Returned r → (∀ c, o_bufferSize o = Some c → 0 ≤ c) →
  well_buffered r ∧ buffered r = [] ∧
  capacity r = if truthyZ (o_bufferSize o) then o_bufferSize o else None.
Proof.
  intros Hc Hpos. destruct (constructed_buffer o r Hc) as [Hs Hb].
  unfold well_buffered, buffered, capacity. rewrite Hb, Hs.
  destruct (truthyZ (o_bufferSize o)) eqn:T; [|done].
  apply truthyZ_true in T as (c & Hsome & Hnz). rewrite Hsome.
  specialize (Hpos c Hsome). cbn. split_and!; try done; try lia.
Qed.

(** X17. Every receive request of a run carries the parameters the receiver
    was configured with: queue URL, attribute names, batch size, wait time
    and visibility timeout never change. *)
Theorem every_receive_request_is_configured
    (r : Receiver) (arrays : gmap nat (list Message)) (inputs : list Input) :
  Forall (configured r) (trace (steps inputs (boot r arrays))).
Proof.
  destruct (evolves_steps r inputs (boot r arrays) eq_refl) as (l & Ht & Hc & _).
  by rewrite Ht.
Qed.

(** X18. No input of the event loop changes an array the application holds. *)
Theorem application_arrays_keep_their_contents
    (w : World) (inputs : list Input) (a : nat) (xs : list Message) :
  heap w !! a = Some xs → heap (steps inputs w) !! a = Some xs.
Proof.
  destruct (evolves_steps (me w) inputs w eq_refl) as (l & _ & _ & _ & Hh & _).
  apply Hh.
Qed.

Lemma application_arrays_keep_their_contents_witness :
  let inputs := [Ack (ArgArray 7); BatchReply 0 (BatchData []); BatchReply 0 (BatchData [])] in
  heap holding_twelve !! 7%nat = Some twelve ∧
  heap (steps inputs holding_twelve) !! 7%nat = Some twelve.
Proof.
  intros inputs.
  assert (heap holding_twelve !! 7%nat = Some twelve) as H by reflexivity.
  split; [exact H|].
  exact (application_arrays_keep_their_contents holding_twelve inputs 7 twelve H).
Defined.

(** X19. For a receiver built by the constructor with no negative [bufferSize],
    at every point of a run the messages announced by ['message:received'],
    in order, are the messages handed to [messageReceiver], in order,
    followed by the messages waiting in the buffer: none is lost,
    duplicated or moved between the receive and the callback. *)
Theorem messages_are_handed_over_in_order
    (o : Options) (r : Receiver) (arrays : gmap nat (list Message)) (inputs : list Input) :
  constructor (Some o) = Returned r → (∀ c, o_bufferSize o = Some c → 0 ≤ c) →
  let W := steps inputs (boot r arrays) in
  received (trace W) = handed (trace W) ++ buffered (me W).
Proof.
  intros Hc Hpos W.
  destruct (constructed_well_buffered o r Hc Hpos) as (Hw & Hb & _).
  destruct (evolves_steps r inputs (boot r arrays) eq_refl) as (l & Ht & _ & _ & _ & Hk).
  destruct (Hk Hw) as (_ & _ & _ & Hcons). fold W in Ht, Hcons.
  cbn [boot me trace app] in Ht, Hcons. rewrite Hb in Hcons. by rewrite Ht.
Qed.

(** X20. With [bufferSize] set to [cap > 0], every call of [messageReceiver]
    in a run carries at most [cap] messages, and fewer than [cap] messages
    wait in the buffer between two inputs. *)
Theorem callbacks_stay_within_capacity
    (o : Options) (r : Receiver) (arrays : gmap nat (list Message)) (inputs : list Input)
    (cap : Z) :
  constructor (Some o) = Returned r → o_bufferSize o = Some cap → 0 < cap →
  let W := steps inputs (boot r arrays) in
  Forall (within (Some cap)) (trace W) ∧
  Z.of_nat (length (buffered (me W))) < cap.
Proof.
  intros Hc Hsize Hpos W.
  destruct (constructed_well_buffered o r Hc) as (Hw & _ & Hcap).
  { intros c. rewrite Hsize. intros [= <-]. lia. }
  assert (truthyZ (o_bufferSize o) = true) as T.
  { rewrite Hsize. simpl. apply negb_true_iff, Z.eqb_neq. lia. }
  rewrite T, Hsize in Hcap.
  destruct (evolves_steps r inputs (boot r arrays) eq_refl) as (l & Ht & _ & _ & _ & Hk).
  destruct (Hk Hw) as (Hw' & Hcap' & Hin & _). fold W in Ht, Hw', Hcap'.
  cbn [boot me trace app] in Ht, Hin, Hcap'. rewrite Hcap in Hin, Hcap'.
  split; [by rewrite Ht|].
  unfold well_buffered, capacity, buffered in *.
  destruct (buffer (me W)) as [b|]; [|done].
  injection Hcap' as Hcap'. destruct Hw' as (_ & _ & Hlen). by rewrite <- Hcap'.
Qed.
Lemma messages_are_handed_over_in_order_witness :
  let W := steps three_then_timeout (boot small_buffer_receiver ∅) in
  constructor (Some small_buffer_options) = Returned small_buffer_receiver ∧
  (∀ c, o_bufferSize small_buffer_options = Some c → 0 ≤ c) ∧
  received (trace W) = [msg "1"; msg "2"; msg "3"] ∧
  handed (trace W) ++ buffered (me W) = [msg "1"; msg "2"; msg "3"].
Proof.
  intros W.
  assert (constructor (Some small_buffer_options) = Returned small_buffer_receiver) as Hc
    by reflexivity.
  assert (∀ c, o_bufferSize small_buffer_options = Some c → 0 ≤ c) as Hpos
    by (intros c [= <-]; lia).
  split; [exact Hc|]. split; [exact Hpos|]. split; [reflexivity|].
  rewrite <- (messages_are_handed_over_in_order small_buffer_options small_buffer_receiver
                ∅ three_then_timeout Hc Hpos).
  reflexivity.
Defined.

Lemma callbacks_stay_within_capacity_witness :
  let W := steps three_then_timeout (boot small_buffer_receiver ∅) in
  constructor (Some small_buffer_options) = Returned small_buffer_receiver ∧
  o_bufferSize small_buffer_options = Some 2 ∧
  0 < 2 ∧
  Forall (within (Some 2)) (trace W) ∧
  handed (trace W) = [msg "1"; msg "2"; msg "3"].
Proof.
  intros W.
  assert (constructor (Some small_buffer_options) = Returned small_buffer_receiver) as Hc
    by reflexivity.
  assert (0 < 2) as Hpos by lia.
  split; [exact Hc|]. split; [reflexivity|]. split; [exact Hpos|].
  split; [|reflexivity].
  exact (proj1 (callbacks_stay_within_capacity small_buffer_options small_buffer_receiver
                  ∅ three_then_timeout 2 Hc eq_refl Hpos)).
Defined.

(** The run of the two witnesses: the first two messages leave as a full
    batch, the third on the timer. *)
Example three_then_timeout_trace :
  trace (steps three_then_timeout (boot small_buffer_receiver ∅)) =
    [ReceiveMessage (receive_params small_buffer_receiver);
     Emit (EvMessageReceived [msg "1"; msg "2"; msg "3"]);
     CallMessageReceiver [msg "1"; msg "2"];
     CallMessageReceiver [msg "3"]].
Proof. reflexivity. Qed.
End RunTheorems.

Section ReceiveFailures.
Import Receiver ReceiverSpec Scenario.

(** X10. A receive failure counts as an authentication failure exactly when
    its code is the number 403 or the string ['CredentialsError']. With a
    listener on ['error'] it then emits one ['error'] event of class
    [SQSAuthenticationError] and adds one timer with the configured
    delay, and every other failure emits one ['error'] event of class
    [SQSError] and adds no timer. With no listener on ['error'] the error
    is thrown by [emit] and no timer is added in either case. Neither
    issues a receive request. *)
Theorem receive_failures_are_classified (w : World) (err : SdkError) :
  (is_authentication (code err) = true ↔
     code err = CodeNumber 403 ∨ code err = CodeString "CredentialsError") ∧
  let w' := _internalMessageReceiver (ReceiveFailed err) w in
  inflight w' = inflight w ∧
  count is_receive (since w w') = 0%nat ∧
  if is_authentication (code err)
  then if heard w
       then since w w' =
              [Emit (EvError (mkError SQSAuthenticationError "SQS authentication Error"))] ∧
            pending (timers w') =
              pending (timers w)
                ++ [(next_timer (timers w), PollUnbound, authenticationErrorTimeout (me w))]
       else since w w' = [Throw "SQSAuthenticationError: SQS authentication Error"] ∧
            timers w' = timers w
  else since w w' =
         [if heard w then Emit (EvError (mkError SQSError "SQS Receive Error"))
          else Throw "SQSError: SQS Receive Error"] ∧
       timers w' = timers w.
Proof.
  split.
  - destruct (code err) as [n|s|]; simpl.
    + rewrite Z.eqb_eq. split; [intros ->; by left|by intros [[= ->]|?]].
    + rewrite String.eqb_eq. split; [intros ->; by right|by intros [?|[= ->]]].
    + split; [done|by intros [?|?]].
  - cbn [_internalMessageReceiver]. rewrite !handleErrors_eq.
    destruct (is_authentication (code err)), (heard w) eqn:Hl; cbn;
      (split; [done|]); erewrite since_app by reflexivity; done.
Qed.

Lemma receive_failures_are_classified_witness :
  let w := start (boot plain_receiver ∅) in
  let w' := step (ReceiveReply (ReceiveFailed (mkSdkError (CodeString "CredentialsError")
                                                 "Missing credentials"))) w in
  let u := steps [Listen false; Start] (boot plain_receiver ∅) in
  let u' := step (ReceiveReply (ReceiveFailed (mkSdkError (CodeString "CredentialsError")
                                                 "Missing credentials"))) u in
  since w w' =
    [Emit (EvError (mkError SQSAuthenticationError "SQS authentication Error"))] ∧
  pending (timers w') = [(1%nat, PollUnbound, 10000)] ∧
  since u u' = [Throw "SQSAuthenticationError: SQS authentication Error"] ∧
  pending (timers u') = [].
Proof.
  intros w w' u u'.
  pose proof (proj2 (receive_failures_are_classified (set_inflight 0 w)
                       (mkSdkError (CodeString "CredentialsError") "Missing credentials")))
    as (_ & _ & H1 & H2).
  pose proof (proj2 (receive_failures_are_classified (set_inflight 0 u)
                       (mkSdkError (CodeString "CredentialsError") "Missing credentials")))
    as (_ & _ & H3 & H4).
  split; [exact H1|]. split; [exact H2|]. split; [exact H3|].
  exact (eq_trans (f_equal pending H4) eq_refl).
Defined.

(** The codes that look like 403 but are not the number: the string
    ["403"] is a generic failure. *)
Example string_403_is_generic :
  is_authentication (CodeString "403") = false ∧
  is_authentication (CodeNumber 403) = true ∧
  is_authentication (CodeString "CredentialsError") = true.
Proof. by repeat split. Qed.
End ReceiveFailures.
